(** * nws_cap: the CAP_Feed collection of NWS public alerts

    A shallow embedding of [nws_cap/CAP_Feed.py].  A feed object owns a
    Python dict from alert identifiers to alerts.  Feed objects are mutable
    and are passed around by reference ([+=] and the [store] variants of the
    filters update the receiver in place), so they live in a store of
    objects that every method threads, together with the log of the URLs
    that were requested.  Exceptions are results, and the store a method
    leaves behind when it raises is kept. *)

From stdpp Require Import base option list gmap sets strings.
From Stdlib Require Import Ascii.

(** ** Exceptions and results *)

Inductive exn :=
  | KeyError (key : string)
  | TypeError
  | AttributeError
  | URLError
  | XMLSyntaxError.

Inductive pyres (A : Type) :=
  | Ret (a : A)
  | Raise (e : exn).
Arguments Ret {A} a.
Arguments Raise {A} e.

#[global] Instance exn_eq_dec : EqDecision exn.
Proof. solve_decision. Defined.

#[global] Instance pyres_eq_dec {A} `{EqDecision A} : EqDecision (pyres A).
Proof. solve_decision. Defined.

#[global] Instance pyres_ret : MRet pyres := λ A a, Ret a.
#[global] Instance pyres_bind : MBind pyres := λ A B f r,
  match r with
  | Ret a => f a
  | Raise e => Raise e
  end.

(** ** Alerts *)

(** Modelled from the spec: the class CAP_Alert (module CAP_Alert.py) is
    imported by CAP_Feed.py but is not part of the sources.  An alert holds a
    field mapping (key to scalar value) and a geocode mapping (notation name
    to set of location codes), and is immutable after construction. *)
Record CAP_Alert := mkAlert {
  fields : gmap string string;
  geocodes : gmap string (gset string)
}.

(** Modelled from the spec: [get_field(name)] of the missing CAP_Alert
    returns the scalar value of a named field and fails with a lookup error
    if the field is absent. *)
Definition get_field (alert : CAP_Alert) (name : string) : pyres string :=
  match fields alert !! name with
  | Some v => Ret v
  | None => Raise (KeyError name)
  end.

(** Modelled from the spec: [get_geocode(notation)] of the missing CAP_Alert
    returns the set of location codes published for the notation, the empty
    set if there is none. *)
Definition get_geocode (alert : CAP_Alert) (notation : string) : gset string :=
  default ∅ (geocodes alert !! notation).

(** One entry of a parsed feed document: its title and what the entry
    publishes. *)
Record feed_entry := mkEntry {
  title : string;
  entry_fields : gmap string string;
  entry_geocodes : gmap string (gset string)
}.

(** Modelled from the spec: the constructor of the missing CAP_Alert
    extracts and stores the fields and geocodes of one parsed entry and
    performs no I/O. *)
Definition CAP_Alert_new (entry : feed_entry) : CAP_Alert :=
  {| fields := entry_fields entry; geocodes := entry_geocodes entry |}.

(** ** Python dicts and strings *)

(** [d.values()] of Python 2: a fresh list, in the iteration order of the
    dict. *)
Definition dict_values {V} (d : gmap string V) : list V := (map_to_list d).*2.

(** [d.keys()]. *)
Definition dict_keys {V} (d : gmap string V) : list string := (map_to_list d).*1.

(** [d.setdefault(k, []).append(x)]. *)
Definition setdefault_append {V} (k : string) (x : V)
    (d : gmap string (list V)) : gmap string (list V) :=
  <[k := default [] (d !! k) ++ [x]]> d.

Definition lower_ascii (c : ascii) : ascii :=
  let n := nat_of_ascii c in
  if (65 <=? n)%nat && (n <=? 90)%nat then ascii_of_nat (n + 32) else c.

Definition upper_ascii (c : ascii) : ascii :=
  let n := nat_of_ascii c in
  if (97 <=? n)%nat && (n <=? 122)%nat then ascii_of_nat (n - 32) else c.

(** [s.lower()] and [s.upper()] on byte strings. *)
Fixpoint lower (s : string) : string :=
  match s with
  | EmptyString => EmptyString
  | String c r => String (lower_ascii c) (lower r)
  end.

Fixpoint upper (s : string) : string :=
  match s with
  | EmptyString => EmptyString
  | String c r => String (upper_ascii c) (upper r)
  end.

(** ** Feed objects, the object store and the method monad *)

Record CAP_Feed := mkFeed { alerts : gmap string CAP_Alert }.

(** A reference to a feed object. *)
Definition loc := nat.

Record world := mkWorld {
  heap : list CAP_Feed;
  fetched : list string
}.

Definition with_heap (w : world) (h : list CAP_Feed) : world :=
  {| heap := h; fetched := fetched w |}.

Definition M (A : Type) : Type := world → pyres A * world.

#[global] Instance M_ret : MRet M := λ A a w, (Ret a, w).
#[global] Instance M_bind : MBind M := λ A B f m w,
  match m w with
  | (Ret a, w') => f a w'
  | (Raise e, w') => (Raise e, w')
  end.

Definition lift {A} (r : pyres A) : M A := λ w, (r, w).

(** [for x in l: body(x)] *)
Fixpoint for_each {A} (l : list A) (body : A → M unit) : M unit :=
  match l with
  | [] => mret ()
  | x :: rest => body x;; for_each rest body
  end.

(** Reading [self.alerts]; a reference that is not a feed object has no such
    attribute. *)
Definition getattr_alerts (self : loc) : M (gmap string CAP_Alert) := λ w,
  match heap w !! self with
  | Some o => (Ret (alerts o), w)
  | None => (Raise AttributeError, w)
  end.

(** Binding [self.alerts]. *)
Definition setattr_alerts (self : loc) (d : gmap string CAP_Alert) : M unit :=
  λ w, (Ret (), with_heap w (<[self := mkFeed d]> (heap w))).

(** Creation of the instance that [__init__] then fills. *)
Definition new_object : M loc := λ w,
  (Ret (length (heap w)), with_heap w (heap w ++ [mkFeed ∅])).

(** ** The methods of CAP_Feed *)

(** [self.alerts[alert.get_field('id')] = alert] *)
Definition store_alert (self : loc) (alert : CAP_Alert) : M unit :=
  d ← getattr_alerts self;
  k ← lift (get_field alert "id");
  setattr_alerts self (<[k := alert]> d).

Definition __init__ (self : loc) (alert_list : list CAP_Alert) : M unit :=
  setattr_alerts self ∅;;
  for_each alert_list (store_alert self).

(** The call [cls(alert_list)]. *)
Definition cls (alert_list : list CAP_Alert) : M loc :=
  self ← new_object;
  __init__ self alert_list;;
  mret self.

Definition get_alerts (self : loc) : M (list CAP_Alert) :=
  d ← getattr_alerts self;
  mret (dict_values d).

Definition count_alerts (self : loc) : M nat :=
  d ← getattr_alerts self;
  mret (length (dict_values d)).

Definition __add__ (self other : loc) : M loc :=
  a ← get_alerts self;
  b ← get_alerts other;
  cls (a ++ b).

Definition __iadd__ (self other : loc) : M loc :=
  l ← get_alerts other;
  for_each l (store_alert self);;
  mret self.

Fixpoint categorize_loop (entries : list CAP_Alert) (field_name : string)
    (alerts : gmap string (list CAP_Alert)) : pyres (gmap string (list CAP_Alert)) :=
  match entries with
  | [] => Ret alerts
  | entry :: rest =>
      v ← get_field entry field_name;
      categorize_loop rest field_name (setdefault_append v entry alerts)
  end.

Definition categorize_alerts (self : loc) (field_name : string)
    : M (option (gmap string (list CAP_Alert))) :=
  n ← count_alerts self;
  if decide (n ≠ 0) then
    d ← getattr_alerts self;
    alerts ← lift (categorize_loop (dict_values d) field_name ∅);
    mret (Some alerts)
  else mret None.

Fixpoint filter_alerts_loop (entries : list CAP_Alert) (field_name : string)
    (values : list string) (alerts : gmap string CAP_Alert)
    : pyres (gmap string CAP_Alert) :=
  match entries with
  | [] => Ret alerts
  | entry :: rest =>
      v ← get_field entry field_name;
      if decide (v ∈ values) then
        k ← get_field entry "id";
        filter_alerts_loop rest field_name values (<[k := entry]> alerts)
      else filter_alerts_loop rest field_name values alerts
  end.

Definition filter_alerts (self : loc) (field_name : string)
    (values : list string) (store : bool) : M (option (list CAP_Alert)) :=
  n ← count_alerts self;
  if decide (n ≠ 0) then
    d ← getattr_alerts self;
    alerts ← lift (filter_alerts_loop (dict_values d) field_name values ∅);
    (if store then setattr_alerts self alerts else mret ());;
    mret (Some (dict_values alerts))
  else mret None.

Fixpoint filter_by_location_loop (entries : list CAP_Alert)
    (locations : list string) (notation : string)
    (alerts : gmap string CAP_Alert) : pyres (gmap string CAP_Alert) :=
  match entries with
  | [] => Ret alerts
  | alert :: rest =>
      let matches := size (get_geocode alert notation ∩ list_to_set locations) in
      if decide (matches = length locations) then
        k ← get_field alert "id";
        filter_by_location_loop rest locations notation (<[k := alert]> alerts)
      else filter_by_location_loop rest locations notation alerts
  end.

Definition filter_by_location (self : loc) (locations : list string)
    (notation : string) (store : bool) : M (option (list CAP_Alert)) :=
  n ← count_alerts self;
  if decide (n = 0) then mret None
  else
    l ← get_alerts self;
    alerts ← lift (filter_by_location_loop l locations notation ∅);
    (if store then setattr_alerts self alerts else mret ());;
    mret (Some (dict_values alerts)).

(** ** Fetching *)

Definition sentinel : string :=
  "There are no active watches, warnings or advisories".

Definition default_url : string := "http://alerts.weather.gov/cap/us.php?x=0".
Definition default_base_url : string := "http://alerts.weather.gov/cap/".
Definition default_suffix : string := ".php?x=0".

(** The loop of [from_url] over the entries of the parsed document. *)
Fixpoint collect_alerts (entries : list feed_entry) (alerts : list CAP_Alert)
    : list CAP_Alert :=
  match entries with
  | [] => alerts
  | entry :: rest =>
      if decide (title entry ≠ sentinel)
      then collect_alerts rest (alerts ++ [CAP_Alert_new entry])
      else collect_alerts rest alerts
  end.

(** [alerts += r]: extending a list by [None] is a type error. *)
Definition list_iadd (alerts : list CAP_Alert) (r : option (list CAP_Alert))
    : pyres (list CAP_Alert) :=
  match r with
  | Some l => Ret (alerts ++ l)
  | None => Raise TypeError
  end.

(** The first loop of [get_zones]. *)
Fixpoint group_zones (zone_codes : list string)
    (requests : gmap string (list string)) : gmap string (list string) :=
  match zone_codes with
  | [] => requests
  | zone :: rest =>
      group_zones rest (setdefault_append (lower (String.substring 0 2 zone)) zone requests)
  end.

(** [requests[state]] *)
Definition getitem (requests : gmap string (list string)) (state : string)
    : pyres (list string) :=
  match requests !! state with
  | Some zones => Ret zones
  | None => Raise (KeyError state)
  end.

(** The inner loop of [get_zones]. *)
Fixpoint zones_loop (state_alerts : loc) (zones : list string)
    (alerts : list CAP_Alert) : M (list CAP_Alert) :=
  match zones with
  | [] => mret alerts
  | zone :: rest =>
      r ← filter_by_location state_alerts [zone] "UGC" false;
      alerts' ← lift (list_iadd alerts r);
      zones_loop state_alerts rest alerts'
  end.

Section Fetch.

(** What the network and the XML parser answer for a URL: the entries of
    the parsed document, or the exception of the transport or the parser.
    Within one call of [get_zones] every URL is requested at most once. *)
Variable web : string → pyres (list feed_entry).

(** [urlopen(url).read()] parsed by [objectify.fromstring], and the
    entries of the document. *)
Definition fetch_entries (url : string) : M (list feed_entry) := λ w,
  (web url, {| heap := heap w; fetched := fetched w ++ [url] |}).

Definition from_url (url : string) : M loc :=
  entries ← fetch_entries url;
  cls (collect_alerts entries []).

Definition whole_state (state base_url suffix : string) : M loc :=
  let state_url := base_url +:+ lower state +:+ suffix in
  from_url state_url.

Definition get_county (county_code base_url suffix : string) : M loc :=
  let county_url := base_url +:+ upper county_code +:+ suffix in
  from_url county_url.

Definition get_zone := get_county.

(** The outer loop of [get_zones]. *)
Fixpoint states_loop (states : list string)
    (requests : gmap string (list string)) (base_url suffix : string)
    (alerts : list CAP_Alert) : M (list CAP_Alert) :=
  match states with
  | [] => mret alerts
  | state :: rest =>
      state_alerts ← whole_state state base_url suffix;
      zones ← lift (getitem requests state);
      alerts' ← zones_loop state_alerts zones alerts;
      states_loop rest requests base_url suffix alerts'
  end.

Definition get_zones (zone_codes : list string) (base_url suffix : string)
    : M loc :=
  let requests := group_zones zone_codes ∅ in
  alerts ← states_loop (dict_keys requests) requests base_url suffix [];
  cls alerts.

End Fetch.

(** ** The invariant of a feed and the specification of the loops *)

(** An alert that carries an identifier, and one that carries a field. *)
Definition has_some_id (a : CAP_Alert) : Prop := ∃ k, get_field a "id" = Ret k.

Definition has_field (name : string) (a : CAP_Alert) : Prop :=
  ∃ v, get_field a name = Ret v.

(** Every entry is stored under the value of its own [id] field. *)
Definition keyed_by_id (d : gmap string CAP_Alert) : Prop :=
  ∀ k a, d !! k = Some a → get_field a "id" = Ret k.

(** No two entries share an identifier. *)
Definition ids_unique (d : gmap string CAP_Alert) : Prop :=
  ∀ k1 k2 a1 a2 i,
    d !! k1 = Some a1 → d !! k2 = Some a2 →
    get_field a1 "id" = Ret i → get_field a2 "id" = Ret i → k1 = k2.

Definition feed_inv (f : CAP_Feed) : Prop :=
  keyed_by_id (alerts f) ∧ ids_unique (alerts f).

Definition heap_inv (w : world) : Prop := Forall feed_inv (heap w).

(** The alerts of a list that carry identifier [k]. *)
Definition with_id (k : string) (l : list CAP_Alert) : list CAP_Alert :=
  filter (λ a, get_field a "id" = Ret k) l.

(** What the indexing loops compute when no lookup fails: the alerts that
    [keep] selects, inserted from left to right under their identifier. *)
Fixpoint index_where (keep : CAP_Alert → bool) (l : list CAP_Alert)
    (acc : gmap string CAP_Alert) : gmap string CAP_Alert :=
  match l with
  | [] => acc
  | a :: rest =>
      index_where keep rest
        (if keep a then
           match fields a !! "id" with
           | Some k => <[k := a]> acc
           | None => acc
           end
         else acc)
  end.

(** The test of [filter_alerts] on one entry. *)
Definition field_in (field_name : string) (values : list string)
    (a : CAP_Alert) : bool :=
  match get_field a field_name with
  | Ret v => bool_decide (v ∈ values)
  | Raise _ => false
  end.

(** The test of [filter_by_location] on one alert. *)
Definition covers_by_count (locations : list string) (notation : string)
    (a : CAP_Alert) : bool :=
  bool_decide (size (get_geocode a notation ∩ list_to_set locations)
               = length locations).

(** The reading of the filter by location as a containment test. *)
Definition covers_all (locations : list string) (notation : string)
    (a : CAP_Alert) : Prop :=
  ∀ c, c ∈ locations → c ∈ get_geocode a notation.

(** The two-character state prefix of a zone code, as [get_zones] takes it. *)
Definition state_of (zone : string) : string :=
  lower (String.substring 0 2 zone).

(** The URL [whole_state] requests for a state. *)
Definition state_url (base_url suffix state : string) : string :=
  base_url +:+ lower state +:+ suffix.

#[global] Instance keyed_by_id_dec d : Decision (keyed_by_id d).
Proof.
  change (Decision (map_Forall (λ k a, get_field a "id" = Ret k) d)).
  apply map_Forall_dec. intros k a. apply _.
Defined.

(** The dict of the feed that a whole-state fetch builds from the answer
    of the network, when the answer is a document. *)
Definition state_feed (web : string → pyres (list feed_entry))
    (base_url suffix state : string) : gmap string CAP_Alert :=
  match web (state_url base_url suffix state) with
  | Ret entries => index_where (λ _, true) (collect_alerts entries []) ∅
  | Raise _ => ∅
  end.

(** The network answers for a state with a document of at least one alert,
    and every alert of the document carries an identifier. *)
Definition has_alerts (web : string → pyres (list feed_entry))
    (base_url suffix state : string) : Prop :=
  ∃ entries,
    web (state_url base_url suffix state) = Ret entries ∧
    collect_alerts entries [] ≠ [] ∧
    Forall has_some_id (collect_alerts entries []).

(** The alerts of a dict that are effective for one zone, as the inner loop
    of [get_zones] selects them. *)
Definition zone_matches (d : gmap string CAP_Alert) (zone : string)
    : list CAP_Alert :=
  dict_values (filter (λ kv, covers_by_count [zone] "UGC" kv.2 = true) d).

(** The identifiers carried by the alerts of a list, in list order. *)
Definition alert_ids (l : list CAP_Alert) : list string :=
  omap (λ a, fields a !! "id") l.

(** ** Sample alerts, feeds and answers of the network *)

Definition alert_A1 : CAP_Alert :=
  mkAlert {[ "id" := "A"; "cap:urgency" := "Immediate" ]}
          {[ "UGC" := {[ "MIZ001" ]} ]}.

Definition alert_A2 : CAP_Alert :=
  mkAlert {[ "id" := "A"; "cap:urgency" := "Expected" ]}
          {[ "UGC" := {[ "MIZ001"; "MIZ002" ]} ]}.

Definition alert_B : CAP_Alert :=
  mkAlert {[ "id" := "B"; "cap:urgency" := "Immediate" ]}
          {[ "UGC" := {[ "MIZ002" ]} ]}.

Definition alert_C : CAP_Alert :=
  mkAlert {[ "id" := "C"; "cap:urgency" := "Expected" ]}
          {[ "UGC" := {[ "OHZ002" ]} ]}.

Definition feed_AB : CAP_Feed :=
  mkFeed {[ "A" := alert_A1; "B" := alert_B ]}.

Definition feed_AC : CAP_Feed :=
  mkFeed {[ "A" := alert_A2; "C" := alert_C ]}.

Definition feed_empty : CAP_Feed := mkFeed ∅.

(** No object yet and nothing requested. *)
Definition world_0 : world := mkWorld [] [].

(** Two feeds that share the identifier A, and an empty one. *)
Definition world_1 : world := mkWorld [feed_AB; feed_AC; feed_empty] [].

(** Michigan has no active alert (its document holds the sentinel entry
    only), Ohio has one for zone OHZ002; nothing else answers. *)
Definition web_quiet_mi (url : string) : pyres (list feed_entry) :=
  if decide (url = "http://alerts.weather.gov/cap/mi.php?x=0") then
    Ret [mkEntry sentinel ∅ ∅]
  else if decide (url = "http://alerts.weather.gov/cap/oh.php?x=0") then
    Ret [mkEntry "Flood Warning" (fields alert_C) (geocodes alert_C)]
  else Raise URLError.

(** Michigan has two active alerts, Ohio has one; nothing else answers. *)
Definition web_active (url : string) : pyres (list feed_entry) :=
  if decide (url = "http://alerts.weather.gov/cap/mi.php?x=0") then
    Ret [mkEntry "Winter Storm Warning" (fields alert_A1) (geocodes alert_A1);
         mkEntry "Wind Advisory" (fields alert_B) (geocodes alert_B)]
  else if decide (url = "http://alerts.weather.gov/cap/oh.php?x=0") then
    Ret [mkEntry "Flood Warning" (fields alert_C) (geocodes alert_C)]
  else Raise URLError.

(** An alert without the urgency field, and a feed that holds it. *)
Definition alert_D : CAP_Alert :=
  mkAlert {[ "id" := "D" ]} {[ "FIPS6" := {[ "026001" ]} ]}.

Definition feed_AD : CAP_Feed :=
  mkFeed {[ "A" := alert_A1; "D" := alert_D ]}.

Definition world_2 : world := mkWorld [feed_AD] [].

Definition url_mi : string := "http://alerts.weather.gov/cap/mi.php?x=0".

(** The entries of the Michigan document of [web_active]. *)
Definition entries_mi : list feed_entry :=
  [mkEntry "Winter Storm Warning" (fields alert_A1) (geocodes alert_A1);
   mkEntry "Wind Advisory" (fields alert_B) (geocodes alert_B)].

(** * Properties *)

(** ** Dicts, the indexing loops and the store *)

Lemma elem_of_dict_values {V} (d : gmap string V) (v : V) :
  v ∈ dict_values d ↔ ∃ k, d !! k = Some v.
Proof.
  unfold dict_values. rewrite list_elem_of_fmap. split.
  - intros [[k v'] [-> Hin]]. exists k. by apply elem_of_map_to_list.
  - intros [k Hk]. exists (k, v). split; [done|]. by apply elem_of_map_to_list.
Qed.

Lemma length_dict_values {V} (d : gmap string V) : length (dict_values d) = size d.
Proof. unfold dict_values. by rewrite length_fmap, length_map_to_list. Qed.

Lemma keyed_unique d : keyed_by_id d → ids_unique d.
Proof.
  intros Hk k1 k2 a1 a2 i H1 H2 E1 E2.
  apply Hk in H1, H2. congruence.
Qed.

Lemma keyed_empty : keyed_by_id ∅.
Proof. intros k a. by rewrite lookup_empty. Qed.

Lemma keyed_insert d k a :
  keyed_by_id d → get_field a "id" = Ret k → keyed_by_id (<[k := a]> d).
Proof.
  intros Hd Ha k' a'. rewrite lookup_insert. case_decide; [|by apply Hd].
  intros [= <-]. by subst.
Qed.

Lemma get_field_Ret a name v : get_field a name = Ret v ↔ fields a !! name = Some v.
Proof. unfold get_field. destruct (fields a !! name); split; congruence. Qed.

Lemma last_filter_Some {A} (P : A → Prop) `{!∀ x, Decision (P x)} (l : list A) a :
  last (filter P l) = Some a → a ∈ l ∧ P a.
Proof.
  intros Hl. apply last_Some_elem_of in Hl. by apply list_elem_of_filter in Hl as [? ?].
Qed.

Lemma last_filter_None {A} (P : A → Prop) `{!∀ x, Decision (P x)} (l : list A) :
  last (filter P l) = None → ∀ a, a ∈ l → ¬ P a.
Proof.
  intros Hl a Hin HP. apply last_None in Hl.
  assert (a ∈ filter P l) as Hf by (by apply list_elem_of_filter).
  rewrite Hl in Hf. by apply not_elem_of_nil in Hf.
Qed.

Lemma index_where_lookup keep l acc k :
  index_where keep l acc !! k =
    match last (filter (λ a, keep a = true) (with_id k l)) with
    | Some a => Some a
    | None => acc !! k
    end.
Proof.
  revert acc. induction l as [|a l IH]; intros acc; [done|].
  simpl. rewrite IH. unfold with_id. rewrite filter_cons.
  destruct (decide (get_field a "id" = Ret k)) as [Hid|Hid].
  - rewrite filter_cons. apply get_field_Ret in Hid.
    destruct (keep a) eqn:Hk; simpl.
    + rewrite Hid, last_cons, lookup_insert_eq.
      by destruct (last _).
    + done.
  - assert ((if keep a then match fields a !! "id" with Some k0 => <[k0:=a]> acc | None => acc end else acc) !! k = acc !! k) as ->; [|done].
    destruct (keep a); [|done]. destruct (fields a !! "id") as [k0|] eqn:E; [|done].
    rewrite lookup_insert_ne; [done|]. intros ->. apply Hid. by apply get_field_Ret.
Qed.

Lemma index_where_values_acc keep d acc :
  keyed_by_id d →
  index_where keep (dict_values d) acc
  = filter (λ kv, keep kv.2 = true) d ∪ acc.
Proof.
  intros Hd. apply map_eq. intros k.
  rewrite index_where_lookup.
  destruct (last _) as [a|] eqn:Hl.
  - apply last_filter_Some in Hl as [Hin Hk].
    apply list_elem_of_filter in Hin as [Hid Hin].
    apply elem_of_dict_values in Hin as [k' Hk'].
    pose proof (Hd _ _ Hk') as Hid'.
    assert (k' = k) as -> by congruence.
    symmetry. apply lookup_union_Some_l. by apply map_lookup_filter_Some.
  - rewrite lookup_union_r; [done|].
    destruct (filter _ d !! k) as [x|] eqn:Hf; [|done].
    apply map_lookup_filter_Some in Hf as [Hx Hk]. simpl in Hk.
    exfalso. eapply (last_filter_None _ _ Hl x); [|done].
    apply list_elem_of_filter. split; [by apply Hd|].
    apply elem_of_dict_values. eauto.
Qed.

Lemma index_where_values keep d :
  keyed_by_id d →
  index_where keep (dict_values d) ∅ = filter (λ kv, keep kv.2 = true) d.
Proof.
  intros Hd. rewrite index_where_values_acc by done.
  by rewrite (right_id_L ∅ (∪)).
Qed.

Lemma filter_alerts_loop_spec l field_name values acc :
  Forall (has_field field_name) l → Forall has_some_id l →
  filter_alerts_loop l field_name values acc
  = Ret (index_where (field_in field_name values) l acc).
Proof.
  revert acc. induction l as [|a l IH]; intros acc Hf Hi; [done|].
  inversion_clear Hf as [|?? [v Hv] Hf']. inversion_clear Hi as [|?? [k Hk] Hi'].
  simpl. unfold field_in. rewrite Hv. simpl.
  destruct (decide (v ∈ values)) as [Hin|Hin].
  - rewrite bool_decide_eq_true_2 by done. rewrite Hk. simpl.
    apply get_field_Ret in Hk. rewrite Hk. by apply IH.
  - rewrite bool_decide_eq_false_2 by done. by apply IH.
Qed.

Lemma filter_by_location_loop_spec l locations notation acc :
  Forall has_some_id l →
  filter_by_location_loop l locations notation acc
  = Ret (index_where (covers_by_count locations notation) l acc).
Proof.
  revert acc. induction l as [|a l IH]; intros acc Hi; [done|].
  inversion_clear Hi as [|?? [k Hk] Hi'].
  simpl. unfold covers_by_count.
  destruct (decide (size _ = _)) as [Hm|Hm].
  - rewrite bool_decide_eq_true_2 by done. rewrite Hk. simpl.
    apply get_field_Ret in Hk. rewrite Hk. by apply IH.
  - rewrite bool_decide_eq_false_2 by done. by apply IH.
Qed.

Lemma keyed_values_have_id d :
  keyed_by_id d → Forall has_some_id (dict_values d).
Proof.
  intros Hd. apply Forall_forall. intros a Ha.
  apply elem_of_dict_values in Ha as [k Hk]. exists k. by apply Hd.
Qed.

Lemma with_heap_id w : with_heap w (heap w) = w.
Proof. by destruct w. Qed.

Lemma bind_run {A B} (m : M A) (f : A → M B) w :
  (m ≫= f) w = match m w with
                | (Ret a, w') => f a w'
                | (Raise e, w') => (Raise e, w')
                end.
Proof. reflexivity. Qed.

Lemma getattr_alerts_run self w f :
  heap w !! self = Some f → getattr_alerts self w = (Ret (alerts f), w).
Proof. intros Hs. unfold getattr_alerts. by rewrite Hs. Qed.

Lemma store_alert_run self a w f k :
  heap w !! self = Some f → get_field a "id" = Ret k →
  store_alert self a w
  = (Ret (), with_heap w (<[self := mkFeed (<[k := a]> (alerts f))]> (heap w))).
Proof.
  intros Hs Hk. unfold store_alert.
  rewrite bind_run, (getattr_alerts_run _ _ _ Hs), bind_run.
  unfold lift. by rewrite Hk.
Qed.

Lemma for_each_store self l w f :
  heap w !! self = Some f → Forall has_some_id l →
  for_each l (store_alert self) w
  = (Ret (), with_heap w (<[self := mkFeed (index_where (λ _, true) l (alerts f))]> (heap w))).
Proof.
  revert w f. induction l as [|a l IH]; intros w f Hs Hi.
  - simpl. unfold mret, M_ret. f_equal. destruct f as [d]. simpl.
    rewrite list_insert_id by done. by rewrite with_heap_id.
  - inversion_clear Hi as [|?? [k Hk] Hi'].
    cbn [for_each]. rewrite bind_run, (store_alert_run _ _ _ _ _ Hs Hk).
    pose proof (lookup_lt_Some _ _ _ Hs) as Hlt.
    erewrite IH; [|simpl; by apply list_lookup_insert_eq|done].
    simpl. apply get_field_Ret in Hk. rewrite Hk.
    unfold with_heap. simpl. by rewrite list_insert_insert_eq.
Qed.

Lemma cls_spec l w :
  Forall has_some_id l →
  cls l w = (Ret (length (heap w)),
             with_heap w (heap w ++ [mkFeed (index_where (λ _, true) l ∅)])).
Proof.
  intros Hi. unfold cls, __init__.
  rewrite bind_run. unfold new_object at 1. rewrite bind_run, bind_run.
  unfold setattr_alerts at 1.
  erewrite for_each_store; [| |done].
  2:{ simpl. rewrite list_lookup_insert_eq; [done|]. rewrite length_app. simpl. lia. }
  simpl. unfold mret, M_ret, with_heap. simpl. rewrite list_insert_insert_eq.
  rewrite insert_app_r_alt by lia. by rewrite Nat.sub_diag.
Qed.

Lemma filter_always {A} (l : list A) : filter (λ _, true = true) l = l.
Proof.
  induction l as [|x l IH]; [done|].
  rewrite filter_cons. simpl. by rewrite IH.
Qed.

Lemma index_where_app keep l1 l2 acc :
  index_where keep (l1 ++ l2) acc = index_where keep l2 (index_where keep l1 acc).
Proof. revert acc. induction l1 as [|a l1 IH]; intros acc; [done|]. simpl. apply IH. Qed.

Lemma index_all_values d acc :
  keyed_by_id d → index_where (λ _, true) (dict_values d) acc = d ∪ acc.
Proof.
  intros Hd. rewrite index_where_values_acc by done.
  f_equal. apply map_filter_id. by intros.
Qed.

Lemma keyed_filter (P : string * CAP_Alert → Prop) `{!∀ x, Decision (P x)} d :
  keyed_by_id d → keyed_by_id (filter P d).
Proof. intros Hd k a Hf. apply map_lookup_filter_Some in Hf as [Hf _]. by apply Hd. Qed.

Lemma NoDup_dict_values d : keyed_by_id d → NoDup (dict_values d).
Proof.
  intros Hd. unfold dict_values. apply NoDup_fmap_2_strong; [|apply NoDup_map_to_list].
  intros [k1 a1] [k2 a2] H1 H2 Heq. simpl in Heq. subst a2.
  apply elem_of_map_to_list in H1, H2. apply Hd in H1, H2. congruence.
Qed.

(** ** Running the methods *)

Lemma get_alerts_run self w f :
  heap w !! self = Some f → get_alerts self w = (Ret (dict_values (alerts f)), w).
Proof.
  intros Hs. unfold get_alerts. by rewrite bind_run, (getattr_alerts_run _ _ _ Hs).
Qed.

Lemma count_alerts_run self w f :
  heap w !! self = Some f → count_alerts self w = (Ret (size (alerts f)), w).
Proof.
  intros Hs. unfold count_alerts.
  rewrite bind_run, (getattr_alerts_run _ _ _ Hs). unfold mret, M_ret.
  by rewrite length_dict_values.
Qed.

Lemma filter_alerts_run self w f field_name values store :
  heap w !! self = Some f → keyed_by_id (alerts f) → alerts f ≠ ∅ →
  Forall (has_field field_name) (dict_values (alerts f)) →
  let d := filter (λ kv, field_in field_name values kv.2 = true) (alerts f) in
  filter_alerts self field_name values store w
  = (Ret (Some (dict_values d)),
     if store then with_heap w (<[self := mkFeed d]> (heap w)) else w).
Proof.
  intros Hs Hk Hne Hf d. unfold filter_alerts.
  rewrite bind_run, (count_alerts_run _ _ _ Hs).
  rewrite decide_True by (by apply map_size_non_empty_iff).
  rewrite bind_run, (getattr_alerts_run _ _ _ Hs), bind_run. unfold lift.
  rewrite filter_alerts_loop_spec by eauto using keyed_values_have_id.
  rewrite index_where_values by done. fold d.
  by destruct store.
Qed.

Lemma filter_by_location_run self w f locations notation store :
  heap w !! self = Some f → keyed_by_id (alerts f) → alerts f ≠ ∅ →
  let d := filter (λ kv, covers_by_count locations notation kv.2 = true) (alerts f) in
  filter_by_location self locations notation store w
  = (Ret (Some (dict_values d)),
     if store then with_heap w (<[self := mkFeed d]> (heap w)) else w).
Proof.
  intros Hs Hk Hne d. unfold filter_by_location.
  rewrite bind_run, (count_alerts_run _ _ _ Hs).
  rewrite decide_False by (by apply map_size_non_empty_iff).
  rewrite bind_run, (get_alerts_run _ _ _ Hs), bind_run. unfold lift.
  rewrite filter_by_location_loop_spec by eauto using keyed_values_have_id.
  rewrite index_where_values by done. fold d.
  by destruct store.
Qed.

Lemma add_run a b w fa fb :
  heap w !! a = Some fa → heap w !! b = Some fb →
  keyed_by_id (alerts fa) → keyed_by_id (alerts fb) →
  __add__ a b w
  = (Ret (length (heap w)),
     with_heap w (heap w ++ [mkFeed (alerts fb ∪ alerts fa)])).
Proof.
  intros Ha Hb Ka Kb. unfold __add__.
  rewrite bind_run, (get_alerts_run _ _ _ Ha).
  rewrite bind_run, (get_alerts_run _ _ _ Hb).
  rewrite cls_spec.
  2:{ apply Forall_app; split; by apply keyed_values_have_id. }
  rewrite index_where_app, !index_all_values by done.
  by rewrite (right_id_L ∅ (∪)).
Qed.

Lemma iadd_run a b w fa fb :
  heap w !! a = Some fa → heap w !! b = Some fb → keyed_by_id (alerts fb) →
  __iadd__ a b w
  = (Ret a, with_heap w (<[a := mkFeed (alerts fb ∪ alerts fa)]> (heap w))).
Proof.
  intros Ha Hb Kb. unfold __iadd__.
  rewrite bind_run, (get_alerts_run _ _ _ Hb), bind_run.
  rewrite (for_each_store _ _ _ _ Ha) by (by apply keyed_values_have_id).
  by rewrite index_all_values.
Qed.

(** ** Filtering by location (C1) *)

Lemma keyed_by_id_check d : bool_decide (keyed_by_id d) = true → keyed_by_id d.
Proof. apply bool_decide_eq_true_1. Qed.

Lemma keyed_feed_inv f : keyed_by_id (alerts f) → feed_inv f.
Proof. intros Hk. split; [done|]. by apply keyed_unique. Qed.

Lemma elem_of_values_filter (keep : CAP_Alert → bool) d a :
  a ∈ dict_values (filter (λ kv, keep kv.2 = true) d)
  ↔ a ∈ dict_values d ∧ keep a = true.
Proof.
  rewrite !elem_of_dict_values. split.
  - intros [k Hf]. apply map_lookup_filter_Some in Hf as [Hd Hk]. eauto.
  - intros [[k Hd] Hk]. exists k. by apply map_lookup_filter_Some.
Qed.

Lemma size_list_to_set_le (l : list string) :
  size (list_to_set l : gset string) ≤ length l.
Proof.
  induction l as [|c l IH]; [done|]. simpl.
  destruct (decide (c ∈ (list_to_set l : gset string))) as [Hin|Hin].
  - rewrite (subseteq_union_1_L {[c]} (list_to_set l)); [lia|].
    by apply singleton_subseteq_l.
  - rewrite size_union by (by apply disjoint_singleton_l).
    rewrite size_singleton. lia.
Qed.

Lemma size_list_to_set_NoDup (l : list string) :
  size (list_to_set l : gset string) = length l → NoDup l.
Proof.
  induction l as [|c l IH]; [constructor|]. simpl. intros E.
  pose proof (size_list_to_set_le l) as Hle.
  destruct (decide (c ∈ (list_to_set l : gset string))) as [Hin|Hin].
  - rewrite (subseteq_union_1_L {[c]} (list_to_set l)) in E; [lia|].
    by apply singleton_subseteq_l.
  - rewrite size_union in E by (by apply disjoint_singleton_l).
    rewrite size_singleton in E.
    constructor; [|apply IH; lia].
    intros Hc. apply Hin. by apply elem_of_list_to_set.
Qed.

Lemma count_covers locations notation a :
  size (get_geocode a notation ∩ list_to_set locations) = length locations →
  covers_all locations notation a ∧ NoDup locations.
Proof.
  intros Hsz.
  pose proof (size_list_to_set_le locations) as Hle.
  assert (size (get_geocode a notation ∩ list_to_set locations)
          ≤ size (list_to_set locations : gset string)) as Hle'.
  { apply subseteq_size, intersection_subseteq_r. }
  assert (get_geocode a notation ∩ list_to_set locations = list_to_set locations)
    as Heq.
  { apply set_subseteq_size_eq; [apply intersection_subseteq_r|lia]. }
  split.
  - intros c Hc. apply (elem_of_list_to_set (C := gset string)) in Hc.
    rewrite <- Heq in Hc. by apply elem_of_intersection in Hc as [? _].
  - apply size_list_to_set_NoDup. lia.
Qed.

Lemma covers_count locations notation a :
  NoDup locations → covers_all locations notation a →
  size (get_geocode a notation ∩ list_to_set locations) = length locations.
Proof.
  intros Hnd Hc.
  replace (get_geocode a notation ∩ list_to_set locations)
    with (list_to_set locations : gset string).
  - by apply size_list_to_set.
  - apply set_eq. intros c. rewrite elem_of_intersection, elem_of_list_to_set.
    split; [|tauto]. intros Hin. split; [by apply Hc|done].
Qed.

(** C1, as amended: on a feed that holds at least one alert,
    [filter_by_location] returns, each once, exactly the held alerts for
    which the size of the intersection of the geocode set under the notation
    with the set of requested locations equals [len(locations)]; when no
    code is repeated in [locations] these are exactly the held alerts whose
    geocode set contains every requested code. *)
Theorem filter_by_location_returns_covering w self f locations notation store :
  heap w !! self = Some f → feed_inv f → alerts f ≠ ∅ →
  ∃ out w',
    filter_by_location self locations notation store w = (Ret (Some out), w') ∧
    NoDup out ∧
    (∀ a, a ∈ out ↔
          a ∈ dict_values (alerts f) ∧
          size (get_geocode a notation ∩ list_to_set locations) = length locations) ∧
    (NoDup locations →
     ∀ a, a ∈ out ↔ a ∈ dict_values (alerts f) ∧ covers_all locations notation a).
Proof.
  intros Hs [Hk _] Hne.
  eexists _, _. split; [by apply filter_by_location_run|].
  split; [by apply NoDup_dict_values, keyed_filter|].
  assert (∀ a, a ∈ dict_values
                 (filter (λ kv, covers_by_count locations notation kv.2 = true) (alerts f))
               ↔ a ∈ dict_values (alerts f) ∧
                 size (get_geocode a notation ∩ list_to_set locations) = length locations)
    as Hchar.
  { intros a. rewrite elem_of_values_filter. unfold covers_by_count.
    by rewrite bool_decide_eq_true. }
  split; [done|].
  intros Hnd a. rewrite Hchar. split.
  - intros [Hin Hsz]. split; [done|]. by apply count_covers in Hsz as [? _].
  - intros [Hin Hc]. split; [done|]. by apply covers_count.
Qed.

Lemma filter_by_location_returns_covering_witness :
  ∃ out w',
    filter_by_location 0 ["MIZ002"] "UGC" false world_1 = (Ret (Some out), w') ∧
    NoDup out ∧
    (∀ a, a ∈ out ↔
          a ∈ dict_values (alerts feed_AB) ∧
          size (get_geocode a "UGC" ∩ list_to_set ["MIZ002"]) = length ["MIZ002"]) ∧
    (NoDup ["MIZ002"] →
     ∀ a, a ∈ out ↔ a ∈ dict_values (alerts feed_AB) ∧ covers_all ["MIZ002"] "UGC" a).
Proof.
  apply (filter_by_location_returns_covering world_1 0 feed_AB ["MIZ002"] "UGC" false).
  - reflexivity.
  - apply keyed_feed_inv, keyed_by_id_check. vm_compute. reflexivity.
  - intros Hempty. apply (f_equal (λ d, d !! "A")) in Hempty. vm_compute in Hempty.
    discriminate.
Defined.

(** C1, as stated, fails when a code is repeated: the alert A1 is held, its
    UGC geocode set contains every requested code, and nothing is returned. *)
Lemma filter_by_location_repeated_code :
  filter_by_location 0 ["MIZ001"; "MIZ001"] "UGC" false world_1
    = (Ret (Some []), world_1) ∧
  alert_A1 ∈ dict_values (alerts feed_AB) ∧
  covers_all ["MIZ001"; "MIZ001"] "UGC" alert_A1.
Proof.
  split; [by vm_compute|]. split.
  - apply elem_of_dict_values. exists "A". by vm_compute.
  - intros c Hc. assert (c = "MIZ001") as ->.
    { apply list_elem_of_In in Hc. simpl in Hc. intuition. }
    by vm_compute.
Qed.

(** ** Construction from a list (C2) *)

Lemma index_all_lookup l k :
  index_where (λ _, true) l ∅ !! k = last (with_id k l).
Proof.
  rewrite index_where_lookup, filter_always, lookup_empty.
  by destruct (last _).
Qed.

(** C2: constructing a feed from a list of alerts that carry an identifier
    yields a new object whose dict maps every identifier to the last entry
    of the list with that identifier; a list of two alerts with the same
    identifier yields a feed that counts one alert, the later of the two. *)
Theorem construct_indexes_by_id w alert_list :
  Forall has_some_id alert_list →
  ∃ self w' f,
    cls alert_list w = (Ret self, w') ∧
    heap w' !! self = Some f ∧
    (∀ k, alerts f !! k = last (with_id k alert_list)) ∧
    (∀ a1 a2 k, alert_list = [a1; a2] →
       get_field a1 "id" = Ret k → get_field a2 "id" = Ret k →
       count_alerts self w' = (Ret 1, w') ∧ get_alerts self w' = (Ret [a2], w')).
Proof.
  intros Hi. eexists _, _, _. split; [by apply cls_spec|].
  assert (∀ d, heap (with_heap w (heap w ++ [mkFeed d])) !! length (heap w)
               = Some (mkFeed d))
    as Hl.
  { intros d. simpl. rewrite lookup_app_r by lia. by rewrite Nat.sub_diag. }
  split; [apply Hl|]. split; [apply index_all_lookup|].
  intros a1 a2 k -> H1 H2.
  assert (index_where (λ _, true) [a1; a2] ∅ = {[k := a2]}) as Hd.
  { simpl. apply get_field_Ret in H1, H2. rewrite H1, H2.
    by rewrite insert_insert_eq, insert_empty. }
  rewrite (count_alerts_run _ _ _ (Hl _)), (get_alerts_run _ _ _ (Hl _)).
  rewrite Hd. simpl. unfold dict_values.
  by rewrite map_size_singleton, map_to_list_singleton.
Qed.

Lemma construct_indexes_by_id_witness :
  ∃ self w' f,
    cls [alert_A1; alert_A2] world_0 = (Ret self, w') ∧
    heap w' !! self = Some f ∧
    (∀ k, alerts f !! k = last (with_id k [alert_A1; alert_A2])) ∧
    (∀ a1 a2 k, [alert_A1; alert_A2] = [a1; a2] →
       get_field a1 "id" = Ret k → get_field a2 "id" = Ret k →
       count_alerts self w' = (Ret 1, w') ∧ get_alerts self w' = (Ret [a2], w')).
Proof.
  apply (construct_indexes_by_id world_0 [alert_A1; alert_A2]).
  repeat constructor; exists "A"; reflexivity.
Defined.

(** ** Empty feeds (C5) *)

(** C5: on a feed that holds zero alerts, [categorize_alerts],
    [filter_alerts] and [filter_by_location] return [None], whatever the
    other arguments are, and change nothing. *)
Theorem empty_feed_returns_None w self field_name values locations notation store :
  count_alerts self w = (Ret 0, w) →
  categorize_alerts self field_name w = (Ret None, w) ∧
  filter_alerts self field_name values store w = (Ret None, w) ∧
  filter_by_location self locations notation store w = (Ret None, w).
Proof.
  intros Hc. unfold categorize_alerts, filter_alerts, filter_by_location.
  rewrite !bind_run, Hc. by repeat split.
Qed.

Lemma empty_feed_returns_None_witness :
  categorize_alerts 2 "cap:urgency" world_1 = (Ret None, world_1) ∧
  filter_alerts 2 "cap:urgency" ["Immediate"] true world_1 = (Ret None, world_1) ∧
  filter_by_location 2 ["MIZ001"] "UGC" true world_1 = (Ret None, world_1).
Proof.
  apply (empty_feed_returns_None world_1 2 "cap:urgency" ["Immediate"] ["MIZ001"] "UGC" true).
  reflexivity.
Defined.

(** ** Filtering by a field (C6) *)

(** C6: on a feed that holds at least one alert, for a field that every
    held alert carries, [filter_alerts] returns, each once, exactly the held
    alerts whose value for the field is a member of [values]; with no
    values it returns the empty list. *)
Theorem filter_alerts_returns_members w self f field_name values store :
  heap w !! self = Some f → feed_inv f → alerts f ≠ ∅ →
  Forall (has_field field_name) (dict_values (alerts f)) →
  ∃ out w',
    filter_alerts self field_name values store w = (Ret (Some out), w') ∧
    NoDup out ∧
    (∀ a, a ∈ out ↔
          a ∈ dict_values (alerts f) ∧
          ∃ v, get_field a field_name = Ret v ∧ v ∈ values) ∧
    (values = [] → out = []).
Proof.
  intros Hs [Hk _] Hne Hf.
  eexists _, _. split; [by apply filter_alerts_run|].
  split; [by apply NoDup_dict_values, keyed_filter|].
  assert (∀ a, a ∈ dict_values
                 (filter (λ kv, field_in field_name values kv.2 = true) (alerts f))
               ↔ a ∈ dict_values (alerts f) ∧
                 ∃ v, get_field a field_name = Ret v ∧ v ∈ values) as Hchar.
  { intros a. rewrite elem_of_values_filter. unfold field_in.
    split; intros [Hin Hv]; (split; [done|]).
    - destruct (get_field a field_name) as [v|e]; [|done].
      exists v. split; [done|]. by apply bool_decide_eq_true in Hv.
    - destruct Hv as (v & -> & Hv). by apply bool_decide_eq_true. }
  split; [done|].
  intros ->. apply elem_of_nil_inv. intros a Ha.
  apply Hchar in Ha as (_ & v & _ & Hv). by apply not_elem_of_nil in Hv.
Qed.

Lemma filter_alerts_returns_members_witness :
  ∃ out w',
    filter_alerts 0 "cap:urgency" ["Immediate"] false world_1 = (Ret (Some out), w') ∧
    NoDup out ∧
    (∀ a, a ∈ out ↔
          a ∈ dict_values (alerts feed_AB) ∧
          ∃ v, get_field a "cap:urgency" = Ret v ∧ v ∈ ["Immediate"]) ∧
    (["Immediate"] = [] → out = []).
Proof.
  apply (filter_alerts_returns_members world_1 0 feed_AB "cap:urgency" ["Immediate"] false).
  - reflexivity.
  - apply keyed_feed_inv, keyed_by_id_check. vm_compute. reflexivity.
  - intros Hempty. apply (f_equal (λ d, d !! "A")) in Hempty. vm_compute in Hempty.
    discriminate.
  - vm_compute. repeat constructor; eexists; reflexivity.
Defined.

(** ** Combining feeds (C3) *)

Lemma lookup_new_object (h : list CAP_Feed) f : (h ++ [f]) !! length h = Some f.
Proof. rewrite lookup_app_r by lia. by rewrite Nat.sub_diag. Qed.

(** C3: for two feeds [a] and [b], [a + b] builds a new object and leaves
    the store otherwise as it was, [a += b] updates [a] in place and returns
    it; both hold the union of the identifiers of [a] and [b], which is also
    what [b + a] holds, and for an identifier of [b] they hold the alert of
    [b]. *)
Theorem combine_union_right_wins w a b fa fb :
  heap w !! a = Some fa → heap w !! b = Some fb → feed_inv fa → feed_inv fb →
  ∃ c fc fa' c' fc',
    __add__ a b w = (Ret c, with_heap w (heap w ++ [fc])) ∧
    c ≠ a ∧ c ≠ b ∧
    (heap w ++ [fc]) !! a = Some fa ∧ (heap w ++ [fc]) !! b = Some fb ∧
    (heap w ++ [fc]) !! c = Some fc ∧
    __iadd__ a b w = (Ret a, with_heap w (<[a := fa']> (heap w))) ∧
    <[a := fa']> (heap w) !! a = Some fa' ∧
    (a ≠ b → <[a := fa']> (heap w) !! b = Some fb) ∧
    __add__ b a w = (Ret c', with_heap w (heap w ++ [fc'])) ∧
    dom (alerts fc) = dom (alerts fa) ∪ dom (alerts fb) ∧
    dom (alerts fa') = dom (alerts fa) ∪ dom (alerts fb) ∧
    dom (alerts fc') = dom (alerts fc) ∧
    (∀ k v, alerts fb !! k = Some v →
            alerts fc !! k = Some v ∧ alerts fa' !! k = Some v) ∧
    (∀ k v, alerts fb !! k = None → alerts fa !! k = Some v →
            alerts fc !! k = Some v ∧ alerts fa' !! k = Some v).
Proof.
  intros Ha Hb [Ka _] [Kb _].
  pose proof (lookup_lt_Some _ _ _ Ha) as La.
  pose proof (lookup_lt_Some _ _ _ Hb) as Lb.
  exists (length (heap w)), (mkFeed (alerts fb ∪ alerts fa)),
         (mkFeed (alerts fb ∪ alerts fa)),
         (length (heap w)), (mkFeed (alerts fa ∪ alerts fb)).
  split; [by apply add_run|].
  split; [lia|]. split; [lia|].
  split; [by rewrite lookup_app_l|]. split; [by rewrite lookup_app_l|].
  split; [apply lookup_new_object|].
  split; [by apply iadd_run|].
  split; [by apply list_lookup_insert_eq|].
  split; [by intros Hne; rewrite list_lookup_insert_ne|].
  split; [by apply add_run|].
  simpl. rewrite !dom_union_L.
  split; [apply (comm_L (∪))|]. split; [apply (comm_L (∪))|].
  split; [apply (comm_L (∪))|].
  split.
  - intros k v Hv. split; by apply lookup_union_Some_l.
  - intros k v Hn Hv. split; by rewrite lookup_union_r.
Qed.

Lemma combine_union_right_wins_witness :
  ∃ c fc fa' c' fc',
    __add__ 0 1 world_1 = (Ret c, with_heap world_1 (heap world_1 ++ [fc])) ∧
    c ≠ 0 ∧ c ≠ 1 ∧
    (heap world_1 ++ [fc]) !! 0 = Some feed_AB ∧
    (heap world_1 ++ [fc]) !! 1 = Some feed_AC ∧
    (heap world_1 ++ [fc]) !! c = Some fc ∧
    __iadd__ 0 1 world_1 = (Ret 0, with_heap world_1 (<[0 := fa']> (heap world_1))) ∧
    <[0 := fa']> (heap world_1) !! 0 = Some fa' ∧
    (0 ≠ 1 → <[0 := fa']> (heap world_1) !! 1 = Some feed_AC) ∧
    __add__ 1 0 world_1 = (Ret c', with_heap world_1 (heap world_1 ++ [fc'])) ∧
    dom (alerts fc) = dom (alerts feed_AB) ∪ dom (alerts feed_AC) ∧
    dom (alerts fa') = dom (alerts feed_AB) ∪ dom (alerts feed_AC) ∧
    dom (alerts fc') = dom (alerts fc) ∧
    (∀ k v, alerts feed_AC !! k = Some v →
            alerts fc !! k = Some v ∧ alerts fa' !! k = Some v) ∧
    (∀ k v, alerts feed_AC !! k = None → alerts feed_AB !! k = Some v →
            alerts fc !! k = Some v ∧ alerts fa' !! k = Some v).
Proof.
  apply (combine_union_right_wins world_1 0 1 feed_AB feed_AC).
  - reflexivity.
  - reflexivity.
  - apply keyed_feed_inv, keyed_by_id_check. vm_compute. reflexivity.
  - apply keyed_feed_inv, keyed_by_id_check. vm_compute. reflexivity.
Defined.

(** ** Round trip through [get_alerts] (C7) *)

(** C7: a feed constructed from [get_alerts()] of a feed [f] is a new
    object that counts as many alerts as [f] and holds the identifiers of
    [f], indeed the very dict of [f]. *)
Theorem construct_get_alerts_roundtrip w self f :
  heap w !! self = Some f → feed_inv f →
  ∃ c w' f' n,
    (l ← get_alerts self; cls l) w = (Ret c, w') ∧
    c ≠ self ∧ heap w' !! self = Some f ∧ heap w' !! c = Some f' ∧
    count_alerts c w' = (Ret n, w') ∧ count_alerts self w' = (Ret n, w') ∧
    dom (alerts f') = dom (alerts f) ∧
    alerts f' = alerts f.
Proof.
  intros Hs [Hk _].
  pose proof (lookup_lt_Some _ _ _ Hs) as Hlt.
  exists (length (heap w)), (with_heap w (heap w ++ [mkFeed (alerts f)])),
         (mkFeed (alerts f)), (size (alerts f)).
  assert (heap (with_heap w (heap w ++ [mkFeed (alerts f)])) !! self = Some f) as Hs'.
  { simpl. by rewrite lookup_app_l. }
  assert (heap (with_heap w (heap w ++ [mkFeed (alerts f)])) !! length (heap w)
          = Some (mkFeed (alerts f))) as Hc.
  { simpl. apply lookup_new_object. }
  split.
  - rewrite bind_run, (get_alerts_run _ _ _ Hs).
    rewrite cls_spec by (by apply keyed_values_have_id).
    rewrite index_all_values by done. by rewrite (right_id_L ∅ (∪)).
  - split; [lia|]. split; [done|]. split; [done|].
    split; [by rewrite (count_alerts_run _ _ _ Hc)|].
    split; [by rewrite (count_alerts_run _ _ _ Hs')|]. done.
Qed.

Lemma construct_get_alerts_roundtrip_witness :
  ∃ c w' f' n,
    (l ← get_alerts 0; cls l) world_1 = (Ret c, w') ∧
    c ≠ 0 ∧ heap w' !! 0 = Some feed_AB ∧ heap w' !! c = Some f' ∧
    count_alerts c w' = (Ret n, w') ∧ count_alerts 0 w' = (Ret n, w') ∧
    dom (alerts f') = dom (alerts feed_AB) ∧
    alerts f' = alerts feed_AB.
Proof.
  apply (construct_get_alerts_roundtrip world_1 0 feed_AB).
  - reflexivity.
  - apply keyed_feed_inv, keyed_by_id_check. vm_compute. reflexivity.
Defined.

(** ** The store flag of the filters (C9) *)

Lemma filter_alerts_unset_state self field_name values w :
  (filter_alerts self field_name values false w).2 = w.
Proof.
  unfold filter_alerts, count_alerts. rewrite !bind_run. unfold getattr_alerts.
  destruct (heap w !! self) as [f|] eqn:Hs; [|done]. simpl.
  destruct (decide (_ ≠ 0)); [|done].
  rewrite bind_run, Hs, bind_run. unfold lift.
  by destruct (filter_alerts_loop _ _ _ _).
Qed.

Lemma filter_by_location_unset_state self locations notation w :
  (filter_by_location self locations notation false w).2 = w.
Proof.
  unfold filter_by_location, count_alerts. rewrite !bind_run. unfold getattr_alerts.
  destruct (heap w !! self) as [f|] eqn:Hs; [|done]. simpl.
  destruct (decide (_ = 0)); [done|].
  unfold get_alerts. rewrite !bind_run. unfold getattr_alerts. rewrite Hs.
  simpl. rewrite bind_run. unfold lift.
  by destruct (filter_by_location_loop _ _ _ _).
Qed.

(** C9: on a feed that holds at least one alert, both filters return the
    values of the dict of selected entries; without [store] nothing changes
    (not even when a field lookup fails), with [store] that dict becomes the
    collection of the feed and nothing else changes.  What [filter_alerts]
    returns is stated for a field that every held alert carries. *)
Theorem filters_store_flag w self f field_name values locations notation :
  heap w !! self = Some f → feed_inv f → alerts f ≠ ∅ →
  (filter_alerts self field_name values false w).2 = w ∧
  (filter_by_location self locations notation false w).2 = w ∧
  (∃ d,
    filter_by_location self locations notation false w
      = (Ret (Some (dict_values d)), w) ∧
    filter_by_location self locations notation true w
      = (Ret (Some (dict_values d)), with_heap w (<[self := mkFeed d]> (heap w))) ∧
    <[self := mkFeed d]> (heap w) !! self = Some (mkFeed d) ∧
    (∀ k a, d !! k = Some a ↔
            alerts f !! k = Some a ∧
            size (get_geocode a notation ∩ list_to_set locations) = length locations)) ∧
  (Forall (has_field field_name) (dict_values (alerts f)) →
   ∃ d,
    filter_alerts self field_name values false w
      = (Ret (Some (dict_values d)), w) ∧
    filter_alerts self field_name values true w
      = (Ret (Some (dict_values d)), with_heap w (<[self := mkFeed d]> (heap w))) ∧
    <[self := mkFeed d]> (heap w) !! self = Some (mkFeed d) ∧
    (∀ k a, d !! k = Some a ↔
            alerts f !! k = Some a ∧
            ∃ v, get_field a field_name = Ret v ∧ v ∈ values)).
Proof.
  intros Hs [Hk _] Hne.
  pose proof (lookup_lt_Some _ _ _ Hs) as Hlt.
  split; [apply filter_alerts_unset_state|].
  split; [apply filter_by_location_unset_state|].
  split.
  - exists (filter (λ kv, covers_by_count locations notation kv.2 = true) (alerts f)).
    split; [by rewrite (filter_by_location_run _ _ f)|].
    split; [by rewrite (filter_by_location_run _ _ f)|].
    split; [by apply list_lookup_insert_eq|].
    intros k a. rewrite map_lookup_filter_Some. simpl. unfold covers_by_count.
    by rewrite bool_decide_eq_true.
  - intros Hf.
    exists (filter (λ kv, field_in field_name values kv.2 = true) (alerts f)).
    split; [by rewrite (filter_alerts_run _ _ f)|].
    split; [by rewrite (filter_alerts_run _ _ f)|].
    split; [by apply list_lookup_insert_eq|].
    intros k a. rewrite map_lookup_filter_Some. simpl. unfold field_in.
    split; intros [Hin Hv]; (split; [done|]).
    + destruct (get_field a field_name) as [v|e]; [|done].
      exists v. split; [done|]. by apply bool_decide_eq_true in Hv.
    + destruct Hv as (v & -> & Hv). by apply bool_decide_eq_true.
Qed.

Lemma filters_store_flag_witness :
  (filter_alerts 0 "cap:urgency" ["Immediate"] false world_1).2 = world_1 ∧
  (filter_by_location 0 ["MIZ002"] "UGC" false world_1).2 = world_1 ∧
  (∃ d,
    filter_by_location 0 ["MIZ002"] "UGC" false world_1
      = (Ret (Some (dict_values d)), world_1) ∧
    filter_by_location 0 ["MIZ002"] "UGC" true world_1
      = (Ret (Some (dict_values d)),
         with_heap world_1 (<[0 := mkFeed d]> (heap world_1))) ∧
    <[0 := mkFeed d]> (heap world_1) !! 0 = Some (mkFeed d) ∧
    (∀ k a, d !! k = Some a ↔
            alerts feed_AB !! k = Some a ∧
            size (get_geocode a "UGC" ∩ list_to_set ["MIZ002"]) = length ["MIZ002"])) ∧
  (∃ d,
    filter_alerts 0 "cap:urgency" ["Immediate"] false world_1
      = (Ret (Some (dict_values d)), world_1) ∧
    filter_alerts 0 "cap:urgency" ["Immediate"] true world_1
      = (Ret (Some (dict_values d)),
         with_heap world_1 (<[0 := mkFeed d]> (heap world_1))) ∧
    <[0 := mkFeed d]> (heap world_1) !! 0 = Some (mkFeed d) ∧
    (∀ k a, d !! k = Some a ↔
            alerts feed_AB !! k = Some a ∧
            ∃ v, get_field a "cap:urgency" = Ret v ∧ v ∈ ["Immediate"])).
Proof.
  destruct (filters_store_flag world_1 0 feed_AB "cap:urgency" ["Immediate"]
              ["MIZ002"] "UGC") as (H1 & H2 & H3 & H4).
  - reflexivity.
  - apply keyed_feed_inv, keyed_by_id_check. vm_compute. reflexivity.
  - intros Hempty. apply (f_equal (λ d, d !! "A")) in Hempty. vm_compute in Hempty.
    discriminate.
  - split; [exact H1|]. split; [exact H2|]. split; [exact H3|].
    apply H4. vm_compute. repeat constructor; eexists; reflexivity.
Defined.

(** ** The invariant of the store (C8) *)

Lemma bind_inv {A B} (P : world → Prop) (m : M A) (f : A → M B) w :
  P (m w).2 →
  (∀ a w', m w = (Ret a, w') → P w' → P (f a w').2) →
  P ((m ≫= f) w).2.
Proof.
  intros Hm Hf. rewrite bind_run.
  destruct (m w) as [[a|e] w'] eqn:E; simpl in *; eauto.
Qed.

Lemma get_alerts_state self w : (get_alerts self w).2 = w.
Proof.
  unfold get_alerts. rewrite bind_run. unfold getattr_alerts.
  by destruct (heap w !! self).
Qed.

Lemma count_alerts_state self w : (count_alerts self w).2 = w.
Proof.
  unfold count_alerts. rewrite bind_run. unfold getattr_alerts.
  by destruct (heap w !! self).
Qed.

Lemma heap_inv_lookup w self f : heap_inv w → heap w !! self = Some f → feed_inv f.
Proof. intros Hw Hs. by eapply (Forall_lookup_1 _ _ _ _ Hw). Qed.

Lemma setattr_alerts_inv self d w :
  heap_inv w → keyed_by_id d → heap_inv (setattr_alerts self d w).2.
Proof.
  intros Hw Hd. unfold heap_inv, setattr_alerts. simpl.
  apply Forall_insert; [done|]. by apply keyed_feed_inv.
Qed.

Lemma store_alert_inv self a w : heap_inv w → heap_inv (store_alert self a w).2.
Proof.
  intros Hw. unfold store_alert. rewrite bind_run. unfold getattr_alerts.
  destruct (heap w !! self) as [f|] eqn:Hs; [|done].
  rewrite bind_run. unfold lift.
  destruct (get_field a "id") as [k|e] eqn:Hk; [|done].
  apply setattr_alerts_inv; [done|].
  apply keyed_insert; [|done]. by apply (heap_inv_lookup w self f).
Qed.

Lemma for_each_inv {A} (P : world → Prop) (body : A → M unit) l w :
  (∀ x w0, P w0 → P (body x w0).2) → P w → P (for_each l body w).2.
Proof.
  intros Hb. revert w. induction l as [|x l IH]; intros w Hw; [done|].
  cbn [for_each]. apply bind_inv; [by apply Hb|].
  intros _ w' _ Hw'. by apply IH.
Qed.

Lemma cls_inv l w : heap_inv w → heap_inv (cls l w).2.
Proof.
  intros Hw. unfold cls. apply bind_inv.
  - unfold heap_inv, new_object. simpl. apply Forall_app. split; [done|].
    constructor; [|done]. apply keyed_feed_inv, keyed_empty.
  - intros self w1 _ Hw1. apply bind_inv; [|done].
    unfold __init__. apply bind_inv.
    + apply setattr_alerts_inv; [done|apply keyed_empty].
    + intros _ w2 _ Hw2. apply for_each_inv; [|done].
      intros a w0. apply store_alert_inv.
Qed.

Lemma add_inv a b w : heap_inv w → heap_inv (__add__ a b w).2.
Proof.
  intros Hw. unfold __add__. apply bind_inv; [by rewrite get_alerts_state|].
  intros la w1 _ Hw1. apply bind_inv; [by rewrite get_alerts_state|].
  intros lb w2 _ Hw2. by apply cls_inv.
Qed.

Lemma iadd_inv a b w : heap_inv w → heap_inv (__iadd__ a b w).2.
Proof.
  intros Hw. unfold __iadd__. apply bind_inv; [by rewrite get_alerts_state|].
  intros l w1 _ Hw1. apply bind_inv; [|done].
  apply for_each_inv; [|done]. intros x w0. apply store_alert_inv.
Qed.

Lemma filter_alerts_loop_keyed l field_name values acc d :
  keyed_by_id acc → filter_alerts_loop l field_name values acc = Ret d →
  keyed_by_id d.
Proof.
  revert acc. induction l as [|a l IH]; intros acc Hacc; simpl.
  - by intros [= <-].
  - destruct (get_field a field_name) as [v|e]; [|done]. simpl.
    destruct (decide (v ∈ values)); [|by apply IH].
    destruct (get_field a "id") as [k|e'] eqn:Hk; [|done]. simpl.
    apply IH. by apply keyed_insert.
Qed.

Lemma filter_by_location_loop_keyed l locations notation acc d :
  keyed_by_id acc → filter_by_location_loop l locations notation acc = Ret d →
  keyed_by_id d.
Proof.
  revert acc. induction l as [|a l IH]; intros acc Hacc; simpl.
  - by intros [= <-].
  - destruct (decide (_ = _)); [|by apply IH].
    destruct (get_field a "id") as [k|e'] eqn:Hk; [|done]. simpl.
    apply IH. by apply keyed_insert.
Qed.

Lemma filter_alerts_inv self field_name values store w :
  heap_inv w → heap_inv (filter_alerts self field_name values store w).2.
Proof.
  intros Hw. unfold filter_alerts.
  apply bind_inv; [by rewrite count_alerts_state|].
  intros n w1 _ Hw1. destruct (decide (n ≠ 0)); [|done].
  apply bind_inv; [unfold getattr_alerts; by destruct (heap w1 !! self)|].
  intros d w2 _ Hw2. apply bind_inv; [done|].
  intros d' w3 [= Hl <-] Hw3. apply bind_inv; [|done].
  destruct store; [|done].
  apply setattr_alerts_inv; [done|].
  eapply filter_alerts_loop_keyed; [apply keyed_empty|done].
Qed.

Lemma filter_by_location_inv self locations notation store w :
  heap_inv w → heap_inv (filter_by_location self locations notation store w).2.
Proof.
  intros Hw. unfold filter_by_location.
  apply bind_inv; [by rewrite count_alerts_state|].
  intros n w1 _ Hw1. destruct (decide (n = 0)); [done|].
  apply bind_inv; [by rewrite get_alerts_state|].
  intros l w2 _ Hw2. apply bind_inv; [done|].
  intros d' w3 [= Hl <-] Hw3. apply bind_inv; [|done].
  destruct store; [|done].
  apply setattr_alerts_inv; [done|].
  eapply filter_by_location_loop_keyed; [apply keyed_empty|done].
Qed.

(** C8: construction from a list, [+], [+=] and both filters, with or
    without [store], leave a store in which every feed keeps each entry
    under the value of its own [id] field, so that no two entries of a feed
    share an identifier; this holds whether the call returns or raises. *)
Theorem operations_preserve_invariant
    w alert_list a b self field_name values locations notation store :
  heap_inv w →
  heap_inv (cls alert_list w).2 ∧
  heap_inv (__add__ a b w).2 ∧
  heap_inv (__iadd__ a b w).2 ∧
  heap_inv (filter_alerts self field_name values store w).2 ∧
  heap_inv (filter_by_location self locations notation store w).2.
Proof.
  intros Hw. repeat split.
  - by apply cls_inv.
  - by apply add_inv.
  - by apply iadd_inv.
  - by apply filter_alerts_inv.
  - by apply filter_by_location_inv.
Qed.

Lemma operations_preserve_invariant_witness :
  heap_inv (cls [alert_A1; alert_A2] world_1).2 ∧
  heap_inv (__add__ 0 1 world_1).2 ∧
  heap_inv (__iadd__ 0 1 world_1).2 ∧
  heap_inv (filter_alerts 0 "cap:urgency" ["Immediate"] true world_1).2 ∧
  heap_inv (filter_by_location 0 ["MIZ002"] "UGC" true world_1).2.
Proof.
  apply (operations_preserve_invariant world_1 [alert_A1; alert_A2] 0 1 0
           "cap:urgency" ["Immediate"] ["MIZ002"] "UGC" true).
  unfold heap_inv. simpl.
  repeat (constructor;
          [apply keyed_feed_inv, keyed_by_id_check; vm_compute; reflexivity|]).
  constructor.
Defined.

(** ** Fetching the alerts of a list of zones (C10, C4) *)

Lemma group_zones_lookup zone_codes requests s :
  group_zones zone_codes requests !! s
  = match requests !! s, filter (λ z, state_of z = s) zone_codes with
    | Some old, zs => Some (old ++ zs)
    | None, [] => None
    | None, zs => Some zs
    end.
Proof.
  revert requests. induction zone_codes as [|z l IH]; intros requests.
  - simpl. destruct (requests !! s); [by rewrite app_nil_r|done].
  - cbn [group_zones]. rewrite IH. unfold setdefault_append.
    fold (state_of z). rewrite filter_cons.
    destruct (decide (state_of z = s)) as [->|Hne].
    + rewrite lookup_insert_eq.
      destruct (requests !! s) as [old|]; simpl.
      * by rewrite <- app_assoc.
      * done.
    + by rewrite lookup_insert_ne.
Qed.

Lemma group_zones_empty_lookup zone_codes s zs :
  group_zones zone_codes ∅ !! s = Some zs ↔
  zs ≠ [] ∧ zs = filter (λ z, state_of z = s) zone_codes.
Proof.
  rewrite group_zones_lookup, lookup_empty.
  destruct (filter _ zone_codes) as [|z l]; split.
  - done.
  - by intros [? ->].
  - by intros [= <-].
  - by intros [_ ->].
Qed.

Lemma group_zones_key zone_codes zone :
  zone ∈ zone_codes → state_of zone ∈ dict_keys (group_zones zone_codes ∅).
Proof.
  intros Hin. unfold dict_keys. apply list_elem_of_fmap.
  exists (state_of zone, filter (λ z, state_of z = state_of zone) zone_codes).
  split; [done|]. apply elem_of_map_to_list, group_zones_empty_lookup.
  split; [|done]. intros Hnil.
  assert (zone ∈ filter (λ z, state_of z = state_of zone) zone_codes) as Hf
    by (by apply list_elem_of_filter).
  rewrite Hnil in Hf. by apply not_elem_of_nil in Hf.
Qed.

Lemma dict_keys_lookup {V} (d : gmap string V) k :
  k ∈ dict_keys d ↔ ∃ v, d !! k = Some v.
Proof.
  unfold dict_keys. rewrite list_elem_of_fmap. split.
  - intros [[k' v] [-> Hin]]. exists v. by apply elem_of_map_to_list.
  - intros [v Hv]. exists (k, v). split; [done|]. by apply elem_of_map_to_list.
Qed.

Lemma cls_nil w :
  cls [] w = (Ret (length (heap w)), with_heap w (heap w ++ [mkFeed ∅])).
Proof. by rewrite cls_spec. Qed.

Lemma zones_loop_empty_feed c z zs alerts w :
  heap w !! c = Some (mkFeed ∅) →
  zones_loop c (z :: zs) alerts w = (Raise TypeError, w).
Proof.
  intros Hc. cbn [zones_loop]. rewrite bind_run.
  unfold filter_by_location. rewrite bind_run, (count_alerts_run _ _ _ Hc).
  simpl. by rewrite map_size_empty.
Qed.

Section Fetching.

Variable web : string → pyres (list feed_entry).
Variables base_url suffix : string.

Lemma whole_state_empty state entries w :
  web (state_url base_url suffix state) = Ret entries →
  collect_alerts entries [] = [] →
  whole_state web state base_url suffix w
  = (Ret (length (heap w)),
     {| heap := heap w ++ [mkFeed ∅];
        fetched := fetched w ++ [state_url base_url suffix state] |}).
Proof.
  intros Hweb Hnil. unfold whole_state, from_url.
  rewrite bind_run. unfold fetch_entries. fold (state_url base_url suffix state).
  rewrite Hweb, Hnil. by rewrite cls_nil.
Qed.

Lemma states_loop_raises requests states s entries alerts w :
  s ∈ states →
  (∀ s', s' ∈ states → ∃ z zs, requests !! s' = Some (z :: zs)) →
  web (state_url base_url suffix s) = Ret entries →
  collect_alerts entries [] = [] →
  ∃ e w', states_loop web states requests base_url suffix alerts w = (Raise e, w').
Proof.
  intros Hin Hreq Hweb Hnil. revert alerts w.
  induction states as [|s0 states IH]; intros alerts w.
  - by apply not_elem_of_nil in Hin.
  - cbn [states_loop]. rewrite bind_run.
    destruct (Hreq s0) as (z & zs & Hz); [by left|].
    apply elem_of_cons in Hin as [<-|Hin].
    + rewrite (whole_state_empty _ _ _ Hweb Hnil).
      rewrite bind_run. unfold lift, getitem. rewrite Hz.
      rewrite bind_run, zones_loop_empty_feed; [eauto|].
      simpl. apply lookup_new_object.
    + destruct (whole_state web s0 base_url suffix w) as [[c|e] w1]; [|eauto].
      rewrite bind_run. unfold lift, getitem. rewrite Hz.
      rewrite bind_run.
      destruct (zones_loop c (z :: zs) alerts w1) as [[alerts'|e] w2]; [|eauto].
      apply IH; [done|]. intros s' Hs'. apply Hreq. by right.
Qed.

(** C10: when the whole-state document fetched for the state prefix of
    one of the requested zones yields a feed with zero alerts,
    [get_zones] does not return a feed but raises. *)
Theorem get_zones_fails_on_empty_state zone_codes zone entries w :
  zone ∈ zone_codes →
  web (state_url base_url suffix (state_of zone)) = Ret entries →
  collect_alerts entries [] = [] →
  ∃ e w', get_zones web zone_codes base_url suffix w = (Raise e, w').
Proof.
  intros Hin Hweb Hnil. unfold get_zones. rewrite bind_run.
  destruct (states_loop_raises (group_zones zone_codes ∅)
              (dict_keys (group_zones zone_codes ∅)) (state_of zone) entries [] w)
    as (e & w' & ->); eauto using group_zones_key.
  intros s' Hs'. apply dict_keys_lookup in Hs' as [zs Hzs].
  pose proof Hzs as Hzs'.
  apply group_zones_empty_lookup in Hzs' as [Hne _].
  destruct zs as [|z zs]; [done|]. eauto.
Qed.

End Fetching.

Lemma get_zones_fails_on_empty_state_witness :
  ∃ e w',
    get_zones web_quiet_mi ["MIZ001"; "OHZ002"] default_base_url default_suffix world_0
    = (Raise e, w').
Proof.
  apply (get_zones_fails_on_empty_state web_quiet_mi default_base_url default_suffix
           ["MIZ001"; "OHZ002"] "MIZ001" [mkEntry sentinel ∅ ∅] world_0).
  - by left.
  - reflexivity.
  - reflexivity.
Defined.

(** C4 on a quiet state: asked for a zone of Michigan while Michigan has no
    active alert, [get_zones] fetches the state once and raises a type
    error instead of returning a feed; asked for a zone of Ohio as well, it
    raises the same error instead of returning the feed of the Ohio alert. *)
Theorem get_zones_quiet_state :
  get_zones web_quiet_mi ["MIZ001"] default_base_url default_suffix world_0
  = (Raise TypeError,
     {| heap := [mkFeed ∅];
        fetched := ["http://alerts.weather.gov/cap/mi.php?x=0"] |}) ∧
  (get_zones web_quiet_mi ["MIZ001"; "OHZ002"] default_base_url default_suffix
     world_0).1 = Raise TypeError.
Proof. split; by vm_compute. Qed.

(** *** What [get_zones] returns when every state has alerts *)

Lemma index_all_nonempty l :
  l ≠ [] → Forall has_some_id l → index_where (λ _, true) l ∅ ≠ ∅.
Proof.
  intros Hne Hi Hempty. destruct l as [|a l]; [done|].
  inversion_clear Hi as [|?? [k Hk] _].
  apply (f_equal (λ d, d !! k)) in Hempty. cbv beta in Hempty.
  rewrite index_all_lookup, lookup_empty in Hempty.
  apply last_None in Hempty.
  assert (a ∈ with_id k (a :: l)) as Hin.
  { apply list_elem_of_filter. split; [done|by left]. }
  rewrite Hempty in Hin. by apply not_elem_of_nil in Hin.
Qed.

Lemma index_all_keyed l acc :
  keyed_by_id acc → keyed_by_id (index_where (λ _, true) l acc).
Proof.
  revert acc. induction l as [|a l IH]; intros acc Hacc; [done|].
  simpl. apply IH. destruct (fields a !! "id") as [k|] eqn:Hk; [|done].
  apply keyed_insert; [done|]. by apply get_field_Ret.
Qed.

Lemma covers_by_count_singleton zone notation a :
  covers_by_count [zone] notation a = true ↔ zone ∈ get_geocode a notation.
Proof.
  unfold covers_by_count. rewrite bool_decide_eq_true. split.
  - intros Hsz. apply count_covers in Hsz as [Hc _]. apply Hc. by left.
  - intros Hin. apply covers_count; [apply NoDup_singleton|].
    intros c Hc. apply list_elem_of_singleton in Hc. by subst.
Qed.

Lemma elem_of_zone_matches d zone a :
  a ∈ zone_matches d zone ↔ a ∈ dict_values d ∧ zone ∈ get_geocode a "UGC".
Proof.
  unfold zone_matches. by rewrite elem_of_values_filter, covers_by_count_singleton.
Qed.

Lemma zones_loop_spec c f zones acc w :
  heap w !! c = Some f → keyed_by_id (alerts f) → alerts f ≠ ∅ →
  zones_loop c zones acc w
  = (Ret (acc ++ flat_map (zone_matches (alerts f)) zones), w).
Proof.
  intros Hc Hk Hne. revert acc.
  induction zones as [|z zs IH]; intros acc.
  - simpl. by rewrite app_nil_r.
  - cbn [zones_loop]. rewrite bind_run.
    rewrite (filter_by_location_run _ _ f) by done.
    rewrite bind_run. unfold lift, list_iadd. rewrite IH.
    simpl. by rewrite <- app_assoc.
Qed.

Section FetchingAll.

Variable web : string → pyres (list feed_entry).
Variables base_url suffix : string.

Lemma state_feed_keyed state : keyed_by_id (state_feed web base_url suffix state).
Proof.
  unfold state_feed. destruct (web _); [|apply keyed_empty].
  apply index_all_keyed, keyed_empty.
Qed.

Lemma state_feed_nonempty state :
  has_alerts web base_url suffix state → state_feed web base_url suffix state ≠ ∅.
Proof.
  intros (entries & Hweb & Hne & Hi). unfold state_feed. rewrite Hweb.
  by apply index_all_nonempty.
Qed.

Lemma whole_state_ok state w :
  has_alerts web base_url suffix state →
  whole_state web state base_url suffix w
  = (Ret (length (heap w)),
     {| heap := heap w ++ [mkFeed (state_feed web base_url suffix state)];
        fetched := fetched w ++ [state_url base_url suffix state] |}).
Proof.
  intros (entries & Hweb & Hne & Hi). unfold whole_state, from_url.
  rewrite bind_run. unfold fetch_entries. fold (state_url base_url suffix state).
  rewrite Hweb, cls_spec by done. unfold state_feed. by rewrite Hweb.
Qed.

Lemma states_loop_spec requests states acc w :
  (∀ s, s ∈ states →
        has_alerts web base_url suffix s ∧ is_Some (requests !! s)) →
  states_loop web states requests base_url suffix acc w
  = (Ret (acc ++ flat_map
                   (λ s, flat_map (zone_matches (state_feed web base_url suffix s))
                                  (default [] (requests !! s)))
                   states),
     {| heap := heap w ++ ((λ s, mkFeed (state_feed web base_url suffix s)) <$> states);
        fetched := fetched w ++ (state_url base_url suffix <$> states) |}).
Proof.
  revert acc w. induction states as [|s0 states IH]; intros acc w Hst.
  - simpl. rewrite !app_nil_r. by destruct w.
  - destruct (Hst s0) as [Hs0 [zs Hzs]]; [by left|].
    cbn [states_loop]. rewrite bind_run, whole_state_ok by done.
    rewrite bind_run. unfold lift, getitem. rewrite Hzs.
    rewrite bind_run.
    rewrite (zones_loop_spec _ (mkFeed (state_feed web base_url suffix s0))).
    + rewrite IH by (intros s Hs; apply Hst; by right).
      simpl. rewrite Hzs. simpl. by rewrite <- !app_assoc.
    + simpl. apply lookup_new_object.
    + apply state_feed_keyed.
    + by apply state_feed_nonempty.
Qed.

(** X14: what [get_zones] does when every requested state has alerts: it
    requests each distinct state prefix once and returns a feed that holds
    exactly the identifiers of the alerts of the state feeds that are
    effective for one of the requested zones of that state. *)
Theorem get_zones_returns_union zone_codes w :
  (∀ zone, zone ∈ zone_codes → has_alerts web base_url suffix (state_of zone)) →
  ∃ c w' f states,
    get_zones web zone_codes base_url suffix w = (Ret c, w') ∧
    heap w' !! c = Some f ∧
    fetched w' = fetched w ++ (state_url base_url suffix <$> states) ∧
    NoDup states ∧
    (∀ s, s ∈ states ↔ ∃ zone, zone ∈ zone_codes ∧ state_of zone = s) ∧
    (∀ k a, alerts f !! k = Some a →
       get_field a "id" = Ret k ∧
       ∃ zone, zone ∈ zone_codes ∧
               a ∈ dict_values (state_feed web base_url suffix (state_of zone)) ∧
               zone ∈ get_geocode a "UGC") ∧
    (∀ zone a, zone ∈ zone_codes →
       a ∈ dict_values (state_feed web base_url suffix (state_of zone)) →
       zone ∈ get_geocode a "UGC" →
       ∃ k, get_field a "id" = Ret k ∧ k ∈ dom (alerts f)).
Proof.
  intros Hall.
  set (requests := group_zones zone_codes ∅).
  set (L := flat_map
              (λ s, flat_map (zone_matches (state_feed web base_url suffix s))
                             (default [] (requests !! s)))
              (dict_keys requests)).
  assert (∀ s, s ∈ dict_keys requests ↔ ∃ zone, zone ∈ zone_codes ∧ state_of zone = s)
    as Hkeys.
  { intros s. rewrite dict_keys_lookup. split.
    - intros [zs Hzs]. apply group_zones_empty_lookup in Hzs as [Hne ->].
      destruct (filter _ zone_codes) as [|z l] eqn:Hf; [done|].
      assert (z ∈ filter (λ z, state_of z = s) zone_codes) as Hz
        by (rewrite Hf; by left).
      apply list_elem_of_filter in Hz as [? ?]. eauto.
    - intros (zone & Hin & <-). apply dict_keys_lookup. by apply group_zones_key. }
  assert (∀ a, a ∈ L ↔
               ∃ zone, zone ∈ zone_codes ∧
                       a ∈ dict_values (state_feed web base_url suffix (state_of zone)) ∧
                       zone ∈ get_geocode a "UGC") as HL.
  { intros a. unfold L. rewrite list_elem_of_In, in_flat_map. split.
    - intros (s & Hs & Ha). apply in_flat_map in Ha as (z & Hz & Ha).
      apply list_elem_of_In in Hs, Hz, Ha.
      apply dict_keys_lookup in Hs as [zs Hzs]. rewrite Hzs in Hz. simpl in Hz.
      apply group_zones_empty_lookup in Hzs as [_ ->].
      apply list_elem_of_filter in Hz as [<- Hz].
      apply elem_of_zone_matches in Ha as [? ?]. eauto.
    - intros (zone & Hin & Ha & Hg). exists (state_of zone). split.
      + apply list_elem_of_In. by apply group_zones_key.
      + apply in_flat_map. exists zone. split.
        * apply list_elem_of_In.
          assert (requests !! state_of zone
                  = Some (filter (λ z, state_of z = state_of zone) zone_codes)) as ->.
          { apply group_zones_empty_lookup. split; [|done]. intros Hnil.
            assert (zone ∈ filter (λ z, state_of z = state_of zone) zone_codes) as Hf
              by (by apply list_elem_of_filter).
            rewrite Hnil in Hf. by apply not_elem_of_nil in Hf. }
          simpl. by apply list_elem_of_filter.
        * apply list_elem_of_In. by apply elem_of_zone_matches. }
  assert (Forall has_some_id L) as HLid.
  { apply Forall_forall. intros a Ha. apply HL in Ha as (zone & _ & Ha & _).
    apply elem_of_dict_values in Ha as [k Hk]. exists k.
    by apply (state_feed_keyed (state_of zone)). }
  exists (length (heap w ++ ((λ s, mkFeed (state_feed web base_url suffix s))
                              <$> dict_keys requests))).
  eexists _, (mkFeed (index_where (λ _, true) L ∅)), (dict_keys requests).
  split.
  - unfold get_zones. fold requests. rewrite bind_run, states_loop_spec.
    + simpl. fold L. by rewrite cls_spec.
    + intros s Hs. split.
      * apply Hkeys in Hs as (zone & Hin & <-). by apply Hall.
      * by apply dict_keys_lookup.
  - split; [simpl; apply lookup_new_object|].
    split; [done|]. split; [apply NoDup_fst_map_to_list|]. split; [exact Hkeys|].
    split.
    + intros k a Hd. simpl in Hd. rewrite index_all_lookup in Hd.
      apply last_filter_Some in Hd as [Ha Hid]. split; [done|]. by apply HL.
    + intros zone a Hin Ha Hg.
      assert (a ∈ L) as HaL by (apply HL; eauto).
      apply elem_of_dict_values in Ha as [k Hk].
      apply (state_feed_keyed (state_of zone)) in Hk.
      exists k. split; [done|]. apply elem_of_dom. simpl.
      rewrite index_all_lookup.
      destruct (last (with_id k L)) as [a'|] eqn:Hl; [eauto|].
      exfalso. by apply (last_filter_None _ _ Hl a).
Qed.

End FetchingAll.

(** With alerts in both states, the zones MIZ001 and OHZ002 cost two
    whole-state fetches and give the feed of the two alerts effective
    there. *)
Example get_zones_two_states :
  ∃ c w',
    get_zones web_active ["MIZ001"; "OHZ002"] default_base_url default_suffix world_0
    = (Ret c, w') ∧
    length (fetched w') = 2 ∧
    heap w' !! c = Some (mkFeed {[ "A" := alert_A1; "C" := alert_C ]}).
Proof. eexists _, _. split; [by vm_compute|]. split; by vm_compute. Qed.

(** * Further properties of the feed *)

(** ** Fetching one document *)


Lemma get_field_id_error a :
  ¬ has_some_id a → get_field a "id" = Raise (KeyError "id").
Proof.
  intros Hn. unfold get_field. destruct (fields a !! "id") as [k|] eqn:Hk; [|done].
  exfalso. apply Hn. exists k. by apply get_field_Ret.
Qed.

Lemma for_each_store_missing_id self l w :
  is_Some (heap w !! self) → ¬ Forall has_some_id l →
  (for_each l (store_alert self) w).1 = Raise (KeyError "id").
Proof.
  revert w. induction l as [|a l IH]; intros w [f Hs] Hn.
  - exfalso. apply Hn. constructor.
  - cbn [for_each]. rewrite bind_run.
    destruct (get_field a "id") as [k|e] eqn:Hk.
    + rewrite (store_alert_run _ _ _ _ _ Hs Hk). apply IH.
      * simpl. pose proof (lookup_lt_Some _ _ _ Hs) as Hlt.
        exists (mkFeed (<[k := a]> (alerts f))). by apply list_lookup_insert_eq.
      * intros Hl. apply Hn. constructor; [by exists k|done].
    + unfold store_alert. rewrite bind_run, (getattr_alerts_run _ _ _ Hs), bind_run.
      unfold lift. rewrite Hk. simpl.
      unfold get_field in Hk. destruct (fields a !! "id"); congruence.
Qed.

Lemma cls_missing_id l w :
  ¬ Forall has_some_id l → (cls l w).1 = Raise (KeyError "id").
Proof.
  intros Hn. unfold cls, __init__.
  rewrite bind_run. unfold new_object at 1. rewrite bind_run, bind_run.
  unfold setattr_alerts at 1.
  pose proof (for_each_store_missing_id (length (heap w)) l
    (with_heap (with_heap w (heap w ++ [mkFeed ∅]))
       (<[length (heap w) := mkFeed ∅]> (heap w ++ [mkFeed ∅])))) as Hf.
  assert (is_Some (heap (with_heap (with_heap w (heap w ++ [mkFeed ∅]))
            (<[length (heap w) := mkFeed ∅]> (heap w ++ [mkFeed ∅])))
            !! length (heap w))) as Hs.
  { exists (mkFeed ∅). simpl. apply list_lookup_insert_eq.
    rewrite length_app. simpl. lia. }
  specialize (Hf Hs Hn).
  destruct (for_each _ _ _) as [[u|e] w1]; simpl in Hf; [done|].
  simpl. by injection Hf as ->.
Qed.

Lemma cls_returns l w c :
  (cls l w).1 = Ret c → Forall has_some_id l.
Proof.
  intros Hc. destruct (decide (Forall (λ a, is_Some (fields a !! "id")) l)) as [Hf|Hf].
  - eapply Forall_impl; [exact Hf|]. intros a [k Hk]. exists k. by apply get_field_Ret.
  - rewrite cls_missing_id in Hc; [done|]. intros Hall. apply Hf.
    eapply Forall_impl; [exact Hall|]. intros a [k Hk]. exists k. by apply get_field_Ret.
Qed.

(** X3: [cls(alert_list)] returns a feed exactly when every alert of the
    list has an [id] field; otherwise it raises [KeyError('id')]. *)
Theorem construct_needs_identifiers alert_list w :
  ((∃ c, (cls alert_list w).1 = Ret c) ↔ Forall has_some_id alert_list) ∧
  (¬ Forall has_some_id alert_list →
   (cls alert_list w).1 = Raise (KeyError "id")).
Proof.
  split; [split|].
  - intros [c Hc]. by apply cls_returns in Hc.
  - intros Hall. rewrite cls_spec by done. eauto.
  - apply cls_missing_id.
Qed.

Section FetchOne.

Variable web : string → pyres (list feed_entry).



End FetchOne.

(** ** Letter case of state and county codes *)

Lemma lower_ascii_idemp c : lower_ascii (lower_ascii c) = lower_ascii c.
Proof. destruct c as [[] [] [] [] [] [] [] []]; reflexivity. Qed.

Lemma lower_upper_ascii c : lower_ascii (upper_ascii c) = lower_ascii c.
Proof. destruct c as [[] [] [] [] [] [] [] []]; reflexivity. Qed.

Lemma upper_ascii_idemp c : upper_ascii (upper_ascii c) = upper_ascii c.
Proof. destruct c as [[] [] [] [] [] [] [] []]; reflexivity. Qed.

Lemma upper_lower_ascii c : upper_ascii (lower_ascii c) = upper_ascii c.
Proof. destruct c as [[] [] [] [] [] [] [] []]; reflexivity. Qed.

Lemma lower_idemp s : lower (lower s) = lower s.
Proof. induction s as [|c s IH]; [done|]. simpl. by rewrite lower_ascii_idemp, IH. Qed.

Lemma lower_upper s : lower (upper s) = lower s.
Proof. induction s as [|c s IH]; [done|]. simpl. by rewrite lower_upper_ascii, IH. Qed.

Lemma upper_idemp s : upper (upper s) = upper s.
Proof. induction s as [|c s IH]; [done|]. simpl. by rewrite upper_ascii_idemp, IH. Qed.

Lemma upper_lower s : upper (lower s) = upper s.
Proof. induction s as [|c s IH]; [done|]. simpl. by rewrite upper_lower_ascii, IH. Qed.

(** ** What the methods leave of the request log *)

Lemma setattr_alerts_fetched self d w : fetched (setattr_alerts self d w).2 = fetched w.
Proof. done. Qed.

Lemma store_alert_fetched self a w : fetched (store_alert self a w).2 = fetched w.
Proof.
  unfold store_alert. rewrite bind_run. unfold getattr_alerts.
  destruct (heap w !! self); [|done]. rewrite bind_run. unfold lift.
  by destruct (get_field a "id").
Qed.

Lemma cls_fetched l w : fetched (cls l w).2 = fetched w.
Proof.
  unfold cls. apply (bind_inv (λ w', fetched w' = fetched w)); [done|].
  intros self w1 _ H1. apply (bind_inv (λ w', fetched w' = fetched w)); [|done].
  unfold __init__. apply (bind_inv (λ w', fetched w' = fetched w)); [done|].
  intros _ w2 _ H2. apply (for_each_inv (λ w', fetched w' = fetched w)); [|done].
  intros a w0 H0. by rewrite store_alert_fetched.
Qed.

Lemma filter_by_location_fetched self locations notation store w :
  fetched (filter_by_location self locations notation store w).2 = fetched w.
Proof.
  unfold filter_by_location.
  apply (bind_inv (λ w', fetched w' = fetched w)); [by rewrite count_alerts_state|].
  intros n w1 _ H1. destruct (decide (n = 0)); [done|].
  apply (bind_inv (λ w', fetched w' = fetched w)); [by rewrite get_alerts_state|].
  intros l w2 _ H2. apply (bind_inv (λ w', fetched w' = fetched w)); [done|].
  intros d w3 [= _ <-] H3. apply (bind_inv (λ w', fetched w' = fetched w)); [|done].
  by destruct store.
Qed.

Lemma zones_loop_fetched c zones acc w :
  fetched (zones_loop c zones acc w).2 = fetched w.
Proof.
  revert acc w. induction zones as [|z zs IH]; intros acc w; [done|].
  cbn [zones_loop].
  apply (bind_inv (λ w', fetched w' = fetched w));
    [apply filter_by_location_fetched|].
  intros r w1 _ H1. apply (bind_inv (λ w', fetched w' = fetched w)); [done|].
  intros acc' w2 [= _ <-] H2. by rewrite IH.
Qed.

Section FetchLog.

Variable web : string → pyres (list feed_entry).

Lemma from_url_fetched url w :
  fetched (from_url web url w).2 = fetched w ++ [url].
Proof.
  unfold from_url. rewrite bind_run. unfold fetch_entries.
  destruct (web url) as [entries|e]; [|done].
  by rewrite cls_fetched.
Qed.

(** X4: [whole_state] does not depend on the letter case of the state
    code, and requests the one URL made of the base, the lower-cased code
    and the suffix, whatever the answer is. *)
Theorem whole_state_case_insensitive state base_url suffix w :
  whole_state web (upper state) base_url suffix w
    = whole_state web state base_url suffix w ∧
  whole_state web (lower state) base_url suffix w
    = whole_state web state base_url suffix w ∧
  fetched (whole_state web state base_url suffix w).2
    = fetched w ++ [base_url +:+ lower state +:+ suffix].
Proof.
  unfold whole_state. rewrite lower_upper, lower_idemp.
  split; [done|]. split; [done|]. apply from_url_fetched.
Qed.

(** X5: [get_county], and [get_zone] which is the same function, do not
    depend on the letter case of the code, and request the one URL made of
    the base, the upper-cased code and the suffix, whatever the answer
    is. *)
Theorem get_county_case_insensitive code base_url suffix w :
  get_county web (lower code) base_url suffix w
    = get_county web code base_url suffix w ∧
  get_zone web (lower code) base_url suffix w
    = get_county web code base_url suffix w ∧
  fetched (get_county web code base_url suffix w).2
    = fetched w ++ [base_url +:+ upper code +:+ suffix].
Proof.
  unfold get_zone, get_county. rewrite upper_lower.
  split; [done|]. split; [done|]. apply from_url_fetched.
Qed.

End FetchLog.

(** ** Categorizing *)

Lemma categorize_loop_lookup l field_name acc :
  Forall (has_field field_name) l →
  ∃ d, categorize_loop l field_name acc = Ret d ∧
       ∀ v, d !! v
            = match acc !! v, filter (λ a, get_field a field_name = Ret v) l with
              | Some old, zs => Some (old ++ zs)
              | None, [] => None
              | None, zs => Some zs
              end.
Proof.
  revert acc. induction l as [|a l IH]; intros acc Hf.
  - exists acc. split; [done|]. intros v. simpl.
    destruct (acc !! v); [by rewrite app_nil_r|done].
  - inversion_clear Hf as [|?? [v0 Hv0] Hf'].
    destruct (IH (setdefault_append v0 a acc) Hf') as (d & Hd & Hlook).
    exists d. split; [simpl; by rewrite Hv0|].
    intros v. rewrite Hlook. unfold setdefault_append. rewrite filter_cons.
    destruct (decide (get_field a field_name = Ret v)) as [Hv|Hv].
    + assert (v0 = v) as -> by congruence. rewrite lookup_insert_eq.
      destruct (acc !! v) as [old|]; simpl; [by rewrite <- app_assoc|done].
    + rewrite lookup_insert_ne; [done|]. intros ->. by apply Hv.
Qed.

(** X6: on a feed that holds at least one alert, for a field that every
    held alert carries, [categorize_alerts] changes nothing and returns a
    dict whose keys are the values the field takes; under each value stands
    the list of exactly the held alerts with that value, so every held
    alert is in the group of its own value and no group is empty. *)
Theorem categorize_alerts_groups w self f field_name :
  heap w !! self = Some f → alerts f ≠ ∅ →
  Forall (has_field field_name) (dict_values (alerts f)) →
  ∃ groups,
    categorize_alerts self field_name w = (Ret (Some groups), w) ∧
    (∀ v l, groups !! v = Some l ↔
            l ≠ [] ∧
            l = filter (λ a, get_field a field_name = Ret v) (dict_values (alerts f))) ∧
    (∀ a, a ∈ dict_values (alerts f) →
          ∃ v l, get_field a field_name = Ret v ∧ groups !! v = Some l ∧ a ∈ l).
Proof.
  intros Hs Hne Hf.
  destruct (categorize_loop_lookup (dict_values (alerts f)) field_name ∅ Hf)
    as (groups & Hloop & Hlook).
  assert (∀ v l, groups !! v = Some l ↔
            l ≠ [] ∧
            l = filter (λ a, get_field a field_name = Ret v) (dict_values (alerts f)))
    as Hchar.
  { intros v l. rewrite Hlook, lookup_empty.
    destruct (filter _ (dict_values (alerts f))) as [|a0 l0]; split.
    - done.
    - by intros [? ->].
    - by intros [= <-].
    - by intros [_ ->]. }
  exists groups. split; [|split; [exact Hchar|]].
  - unfold categorize_alerts. rewrite bind_run, (count_alerts_run _ _ _ Hs).
    rewrite decide_True by (by apply map_size_non_empty_iff).
    rewrite bind_run, (getattr_alerts_run _ _ _ Hs), bind_run. unfold lift.
    by rewrite Hloop.
  - intros a Ha. pose proof (proj1 (Forall_forall _ _) Hf a Ha) as [v Hv].
    exists v, (filter (λ a, get_field a field_name = Ret v) (dict_values (alerts f))).
    assert (a ∈ filter (λ a, get_field a field_name = Ret v) (dict_values (alerts f)))
      as Hin by (by apply list_elem_of_filter).
    split; [done|]. split; [|done]. apply Hchar. split; [|done].
    intros Hnil. rewrite Hnil in Hin. by apply not_elem_of_nil in Hin.
Qed.

(** ** A field that an alert lacks *)

Lemma get_field_error a name :
  ¬ has_field name a → get_field a name = Raise (KeyError name).
Proof.
  intros Hn. unfold get_field. destruct (fields a !! name) as [v|] eqn:Hv; [|done].
  exfalso. apply Hn. exists v. by apply get_field_Ret.
Qed.

Lemma has_field_dec name a : has_field name a ∨ ¬ has_field name a.
Proof.
  unfold has_field, get_field. destruct (fields a !! name) as [v|]; [eauto|].
  right. by intros [? ?].
Qed.

Lemma categorize_loop_error l field_name acc :
  ¬ Forall (has_field field_name) l →
  categorize_loop l field_name acc = Raise (KeyError field_name).
Proof.
  revert acc. induction l as [|a l IH]; intros acc Hn.
  - exfalso. apply Hn. constructor.
  - simpl. destruct (has_field_dec field_name a) as [[v Hv]|Ha].
    + rewrite Hv. simpl. apply IH. intros Hl. apply Hn. constructor; [by exists v|done].
    + by rewrite (get_field_error _ _ Ha).
Qed.

Lemma filter_alerts_loop_error l field_name values acc :
  Forall has_some_id l → ¬ Forall (has_field field_name) l →
  filter_alerts_loop l field_name values acc = Raise (KeyError field_name).
Proof.
  revert acc. induction l as [|a l IH]; intros acc Hi Hn.
  - exfalso. apply Hn. constructor.
  - inversion_clear Hi as [|?? [k Hk] Hi'].
    simpl. destruct (has_field_dec field_name a) as [[v Hv]|Ha].
    + rewrite Hv. simpl.
      assert (¬ Forall (has_field field_name) l) as Hl.
      { intros Hl. apply Hn. constructor; [by exists v|done]. }
      destruct (decide (v ∈ values)); [|by apply IH].
      rewrite Hk. simpl. by apply IH.
    + by rewrite (get_field_error _ _ Ha).
Qed.

(** X7: when a held alert lacks the field, [filter_alerts], with or
    without [store], and [categorize_alerts] raise [KeyError] of the field
    name and change nothing. *)
Theorem missing_field_raises w self f field_name values store :
  heap w !! self = Some f → feed_inv f →
  ¬ Forall (has_field field_name) (dict_values (alerts f)) →
  filter_alerts self field_name values store w = (Raise (KeyError field_name), w) ∧
  categorize_alerts self field_name w = (Raise (KeyError field_name), w).
Proof.
  intros Hs [Hk _] Hn.
  assert (alerts f ≠ ∅) as Hne.
  { intros He. apply Hn. rewrite He. unfold dict_values.
    rewrite map_to_list_empty. constructor. }
  split.
  - unfold filter_alerts. rewrite bind_run, (count_alerts_run _ _ _ Hs).
    rewrite decide_True by (by apply map_size_non_empty_iff).
    rewrite bind_run, (getattr_alerts_run _ _ _ Hs), bind_run. unfold lift.
    by rewrite filter_alerts_loop_error by eauto using keyed_values_have_id.
  - unfold categorize_alerts. rewrite bind_run, (count_alerts_run _ _ _ Hs).
    rewrite decide_True by (by apply map_size_non_empty_iff).
    rewrite bind_run, (getattr_alerts_run _ _ _ Hs), bind_run. unfold lift.
    by rewrite categorize_loop_error.
Qed.

(** ** Edge cases and composition of the filters *)

Lemma feed_eta f : mkFeed (alerts f) = f.
Proof. by destruct f. Qed.

Lemma store_same self w f :
  heap w !! self = Some f → with_heap w (<[self := mkFeed (alerts f)]> (heap w)) = w.
Proof.
  intros Hs. rewrite feed_eta, list_insert_id by done. apply with_heap_id.
Qed.

(** X8: on a feed that holds at least one alert, [filter_by_location] with
    an empty list of locations returns every held alert and, with or
    without [store], changes nothing. *)
Theorem filter_by_location_no_locations w self f notation store :
  heap w !! self = Some f → feed_inv f → alerts f ≠ ∅ →
  filter_by_location self [] notation store w
  = (Ret (Some (dict_values (alerts f))), w).
Proof.
  intros Hs [Hk _] Hne.
  rewrite (filter_by_location_run _ _ f) by done.
  assert (filter (λ kv, covers_by_count [] notation kv.2 = true) (alerts f) = alerts f)
    as ->.
  { apply map_filter_id. intros k a _. simpl. unfold covers_by_count.
    apply bool_decide_eq_true. simpl. rewrite (right_absorb_L ∅ (∩)).
    apply size_empty. }
  destruct store; [|done]. by rewrite store_same.
Qed.

Lemma dict_values_nil_iff {V} (d : gmap string V) : dict_values d = [] ↔ d = ∅.
Proof.
  unfold dict_values. rewrite <- map_to_list_empty_iff.
  split; [apply fmap_nil_inv | by intros ->].
Qed.

(** X9: after a [filter_alerts] that stored its selection, a second
    [filter_alerts] returns [None] when the first selected nothing, and
    otherwise exactly the alerts of the first selection that pass the second
    test. *)
Theorem filter_after_stored_filter w self f field1 values1 field2 values2 :
  heap w !! self = Some f → feed_inv f → alerts f ≠ ∅ →
  Forall (has_field field1) (dict_values (alerts f)) →
  Forall (has_field field2) (dict_values (alerts f)) →
  ∃ out1 w1 r,
    filter_alerts self field1 values1 true w = (Ret (Some out1), w1) ∧
    filter_alerts self field2 values2 false w1 = (Ret r, w1) ∧
    (out1 = [] → r = None) ∧
    (out1 ≠ [] →
     ∃ out2, r = Some out2 ∧
       ∀ a, a ∈ out2 ↔ a ∈ out1 ∧ ∃ v, get_field a field2 = Ret v ∧ v ∈ values2).
Proof.
  intros Hs [Hk _] Hne Hf1 Hf2.
  pose proof (lookup_lt_Some _ _ _ Hs) as Hlt.
  set (d := filter (λ kv, field_in field1 values1 kv.2 = true) (alerts f)).
  set (w1 := with_heap w (<[self := mkFeed d]> (heap w))).
  assert (heap w1 !! self = Some (mkFeed d)) as Hs1
    by (simpl; by apply list_lookup_insert_eq).
  destruct (decide (d = ∅)) as [Hd|Hd].
  - exists (dict_values d), w1, None.
    split; [by rewrite (filter_alerts_run _ _ f)|].
    split.
    + unfold filter_alerts. rewrite bind_run, (count_alerts_run _ _ _ Hs1).
      simpl. by rewrite Hd, map_size_empty.
    + split; [done|]. intros Hn. exfalso. apply Hn. by apply dict_values_nil_iff.
  - assert (Forall (has_field field2) (dict_values d)) as Hf2'.
    { apply Forall_forall. intros a Ha. apply elem_of_values_filter in Ha as [Ha _].
      by apply (proj1 (Forall_forall _ _) Hf2). }
    exists (dict_values d), w1,
      (Some (dict_values (filter (λ kv, field_in field2 values2 kv.2 = true) d))).
    split; [by rewrite (filter_alerts_run _ _ f)|].
    split.
    + rewrite (filter_alerts_run _ _ (mkFeed d)); [done|done| |done|done].
      by apply keyed_filter.
    + split; [by intros Hnil%dict_values_nil_iff|]. intros _.
      eexists. split; [done|]. intros a. simpl.
      rewrite elem_of_values_filter. unfold field_in.
      split; intros [Hin Hv]; (split; [done|]).
      * destruct (get_field a field2) as [v|e]; [|done].
        exists v. split; [done|]. by apply bool_decide_eq_true in Hv.
      * destruct Hv as (v & -> & Hv). by apply bool_decide_eq_true.
Qed.

(** ** Merging and combining, composed *)

(** X10: merging a feed into itself changes nothing, and merging the same
    feed twice is the same as merging it once. *)
Theorem merge_idempotent w a b fa fb :
  heap w !! a = Some fa → heap w !! b = Some fb → feed_inv fa → feed_inv fb →
  __iadd__ a a w = (Ret a, w) ∧
  (__iadd__ a b ≫= λ a', __iadd__ a' b) w = __iadd__ a b w.
Proof.
  intros Ha Hb [Ka _] [Kb _].
  pose proof (lookup_lt_Some _ _ _ Ha) as Hlt.
  split.
  - rewrite (iadd_run a a w fa fa) by done.
    by rewrite (idemp_L (∪)), store_same.
  - rewrite bind_run, (iadd_run a b w fa fb) by done.
    destruct (decide (a = b)) as [->|Hne].
    + assert (fa = fb) as -> by congruence.
      rewrite (idemp_L (∪)), store_same by done.
      rewrite (iadd_run b b w fb fb) by done.
      by rewrite (idemp_L (∪)), store_same.
    + rewrite (iadd_run a b _ (mkFeed (alerts fb ∪ alerts fa)) fb).
      * simpl. unfold with_heap. simpl.
        rewrite list_insert_insert_eq.
        by rewrite (assoc_L (∪)), (idemp_L (∪)).
      * simpl. by apply list_lookup_insert_eq.
      * simpl. by rewrite list_lookup_insert_ne.
      * done.
Qed.

Lemma keyed_union d1 d2 :
  keyed_by_id d1 → keyed_by_id d2 → keyed_by_id (d1 ∪ d2).
Proof.
  intros H1 H2 k a Hu. apply lookup_union_Some_raw in Hu as [Hu|[_ Hu]]; eauto.
Qed.

(** X11: [(a + b) + c] and [a + (b + c)] end in feeds that hold the same
    dict, in which [c] wins over [b] and [b] over [a]. *)
Theorem combine_associative w a b c fa fb fc :
  heap w !! a = Some fa → heap w !! b = Some fb → heap w !! c = Some fc →
  feed_inv fa → feed_inv fb → feed_inv fc →
  ∃ r1 w1 r2 w2,
    (__add__ a b ≫= λ ab, __add__ ab c) w = (Ret r1, w1) ∧
    (__add__ b c ≫= λ bc, __add__ a bc) w = (Ret r2, w2) ∧
    heap w1 !! r1 = Some (mkFeed (alerts fc ∪ alerts fb ∪ alerts fa)) ∧
    heap w2 !! r2 = Some (mkFeed (alerts fc ∪ alerts fb ∪ alerts fa)).
Proof.
  intros Ha Hb Hc [Ka _] [Kb _] [Kc _].
  pose proof (lookup_lt_Some _ _ _ Ha) as La.
  pose proof (lookup_lt_Some _ _ _ Hb) as Lb.
  pose proof (lookup_lt_Some _ _ _ Hc) as Lc.
  eexists _, _, _, _.
  split.
  { rewrite bind_run, (add_run a b w fa fb) by done.
    rewrite (add_run _ c _ (mkFeed (alerts fb ∪ alerts fa)) fc); [done| | | |done].
    - simpl. apply lookup_new_object.
    - simpl. by rewrite lookup_app_l.
    - simpl. by apply keyed_union. }
  split.
  { rewrite bind_run, (add_run b c w fb fc) by done.
    rewrite (add_run a _ _ fa (mkFeed (alerts fc ∪ alerts fb))); [done| | |done|].
    - simpl. by rewrite lookup_app_l.
    - simpl. apply lookup_new_object.
    - simpl. by apply keyed_union. }
  split.
  - simpl. rewrite (assoc_L (∪)). apply lookup_new_object.
  - simpl. apply lookup_new_object.
Qed.

(** ** Counting *)

Lemma dom_index_all l acc :
  dom (index_where (λ _, true) l acc) = list_to_set (alert_ids l) ∪ dom acc.
Proof.
  revert acc. induction l as [|a l IH]; intros acc; simpl.
  - by rewrite (left_id_L ∅ (∪)).
  - rewrite IH. unfold alert_ids. simpl.
    destruct (fields a !! "id") as [k|]; simpl; [|done].
    rewrite dom_insert_L.
    by rewrite (assoc_L (∪)), (comm_L (∪) _ {[k]}).
Qed.

Lemma length_alert_ids l :
  Forall has_some_id l → length (alert_ids l) = length l.
Proof.
  induction 1 as [|a l [k Hk] _ IH]; [done|].
  apply get_field_Ret in Hk. unfold alert_ids in *. simpl. rewrite Hk. simpl.
  f_equal. exact IH.
Qed.

(** X12: a feed constructed from a list counts as many alerts as the list
    has distinct identifiers, never more than the length of the list, and
    exactly that length when no identifier is repeated. *)
Theorem construct_counts_distinct_ids alert_list w :
  Forall has_some_id alert_list →
  ∃ c w' n,
    cls alert_list w = (Ret c, w') ∧
    count_alerts c w' = (Ret n, w') ∧
    n = size (list_to_set (alert_ids alert_list) : gset string) ∧
    n ≤ length alert_list ∧
    (n = length alert_list ↔ NoDup (alert_ids alert_list)).
Proof.
  intros Hi.
  pose proof (length_alert_ids _ Hi) as Hlen.
  pose proof (size_list_to_set_le (alert_ids alert_list)) as Hle.
  eexists _, _, _. split; [by apply cls_spec|].
  split.
  { erewrite count_alerts_run; [done|]. simpl. apply lookup_new_object. }
  simpl. rewrite <- size_dom, dom_index_all, dom_empty_L, (right_id_L ∅ (∪)).
  split; [done|]. split; [lia|]. split.
  - intros Hn. apply size_list_to_set_NoDup. lia.
  - intros Hnd. rewrite size_list_to_set by done. lia.
Qed.

(** ** More on fetching the alerts of a list of zones *)

Lemma categorize_alerts_state self field_name w :
  (categorize_alerts self field_name w).2 = w.
Proof.
  unfold categorize_alerts, count_alerts. rewrite !bind_run. unfold getattr_alerts.
  destruct (heap w !! self) as [f|] eqn:Hs; [|done]. simpl.
  destruct (decide (_ ≠ 0)); [|done].
  rewrite bind_run, Hs, bind_run. unfold lift.
  by destruct (categorize_loop _ _ _).
Qed.

Lemma zones_loop_inv c zones acc w : heap_inv w → heap_inv (zones_loop c zones acc w).2.
Proof.
  revert acc w. induction zones as [|z zs IH]; intros acc w Hw; [done|].
  cbn [zones_loop]. apply bind_inv; [by apply filter_by_location_inv|].
  intros r w1 _ H1. apply bind_inv; [done|].
  intros acc' w2 [= _ <-] H2. by apply IH.
Qed.

Section FetchMore.

Variable web : string → pyres (list feed_entry).

Lemma from_url_inv url w : heap_inv w → heap_inv (from_url web url w).2.
Proof.
  intros Hw. unfold from_url. apply bind_inv.
  - unfold fetch_entries. by destruct w.
  - intros entries w1 _ H1. by apply cls_inv.
Qed.

Lemma states_loop_inv states requests base_url suffix acc w :
  heap_inv w → heap_inv (states_loop web states requests base_url suffix acc w).2.
Proof.
  revert acc w. induction states as [|s0 states IH]; intros acc w Hw; [done|].
  cbn [states_loop]. apply bind_inv; [by apply from_url_inv|].
  intros c w1 _ H1. apply bind_inv; [done|].
  intros zones w2 [= _ <-] H2. apply bind_inv; [by apply zones_loop_inv|].
  intros acc' w3 _ H3. by apply IH.
Qed.

(** X15: the fetching constructors [from_url], [whole_state], [get_county]
    and [get_zones], and [categorize_alerts], leave a store in which every
    feed keeps each entry under its own identifier, whatever the network
    answers and whether they return or raise. *)
Theorem fetchers_preserve_invariant
    w url state code zone_codes base_url suffix self field_name :
  heap_inv w →
  heap_inv (from_url web url w).2 ∧
  heap_inv (whole_state web state base_url suffix w).2 ∧
  heap_inv (get_county web code base_url suffix w).2 ∧
  heap_inv (get_zones web zone_codes base_url suffix w).2 ∧
  heap_inv (categorize_alerts self field_name w).2.
Proof.
  intros Hw. split; [by apply from_url_inv|].
  split; [by apply from_url_inv|]. split; [by apply from_url_inv|].
  split; [|by rewrite categorize_alerts_state].
  unfold get_zones. apply bind_inv; [by apply states_loop_inv|].
  intros acc w1 _ H1. by apply cls_inv.
Qed.

(** X13: for an empty list of zone codes [get_zones] requests nothing and
    returns a new feed without alerts. *)
Theorem get_zones_no_zones base_url suffix w :
  get_zones web [] base_url suffix w
  = (Ret (length (heap w)), with_heap w (heap w ++ [mkFeed ∅])).
Proof.
  unfold get_zones. simpl. unfold dict_keys. rewrite map_to_list_empty. simpl.
  rewrite bind_run. apply cls_nil.
Qed.

Lemma states_loop_fetch_error requests states base_url suffix s e acc w :
  s ∈ states →
  (∀ s', s' ∈ states → is_Some (requests !! s')) →
  web (state_url base_url suffix s) = Raise e →
  ∃ e' w', states_loop web states requests base_url suffix acc w = (Raise e', w').
Proof.
  intros Hin Hreq Hweb. revert acc w.
  induction states as [|s0 states IH]; intros acc w.
  - by apply not_elem_of_nil in Hin.
  - cbn [states_loop]. rewrite bind_run.
    destruct (Hreq s0) as [zs Hz]; [by left|].
    apply elem_of_cons in Hin as [<-|Hin].
    + unfold whole_state, from_url. rewrite bind_run. unfold fetch_entries.
      fold (state_url base_url suffix s). rewrite Hweb. eauto.
    + destruct (whole_state web s0 base_url suffix w) as [[c|e0] w1]; [|eauto].
      rewrite bind_run. unfold lift, getitem. rewrite Hz.
      rewrite bind_run.
      destruct (zones_loop c zs acc w1) as [[acc'|e0] w2]; [|eauto].
      apply IH; [done|]. intros s' Hs'. apply Hreq. by right.
Qed.

(** X16: when the fetch for the state of one of the requested zones fails,
    [get_zones] raises and returns no feed, not even for the states that
    answered. *)
Theorem get_zones_aborts_on_fetch_error zone_codes zone base_url suffix e w :
  zone ∈ zone_codes →
  web (state_url base_url suffix (state_of zone)) = Raise e →
  ∃ e' w', get_zones web zone_codes base_url suffix w = (Raise e', w').
Proof.
  intros Hin Hweb. unfold get_zones. rewrite bind_run.
  destruct (states_loop_fetch_error (group_zones zone_codes ∅)
              (dict_keys (group_zones zone_codes ∅)) base_url suffix
              (state_of zone) e [] w) as (e' & w' & ->); eauto using group_zones_key.
  intros s' Hs'. by apply dict_keys_lookup.
Qed.

Lemma states_loop_fetched requests states base_url suffix acc w :
  ∃ visited,
    visited `prefix_of` states ∧
    fetched (states_loop web states requests base_url suffix acc w).2
    = fetched w ++ (state_url base_url suffix <$> visited).
Proof.
  revert acc w. induction states as [|s0 states IH]; intros acc w.
  - exists []. split; [done|]. simpl. by rewrite app_nil_r.
  - cbn [states_loop]. rewrite bind_run.
    pose proof (from_url_fetched web (state_url base_url suffix s0) w) as Hf.
    fold (whole_state web s0 base_url suffix) in Hf.
    change (from_url web (state_url base_url suffix s0) w)
      with (whole_state web s0 base_url suffix w) in Hf.
    destruct (whole_state web s0 base_url suffix w) as [[c|e0] w1]; simpl in Hf.
    2:{ exists [s0]. split; [by apply prefix_cons, prefix_nil|]. simpl. by rewrite Hf. }
    rewrite bind_run. unfold lift, getitem.
    destruct (requests !! s0) as [zs|].
    2:{ exists [s0]. split; [by apply prefix_cons, prefix_nil|]. simpl. by rewrite Hf. }
    rewrite bind_run.
    pose proof (zones_loop_fetched c zs acc w1) as Hz.
    destruct (zones_loop c zs acc w1) as [[acc'|e0] w2]; simpl in Hz.
    2:{ exists [s0]. split; [by apply prefix_cons, prefix_nil|]. simpl.
        by rewrite Hz, Hf. }
    destruct (IH acc' w2) as (visited & Hp & Hv).
    exists (s0 :: visited). split; [by apply prefix_cons|].
    rewrite Hv, Hz, Hf. simpl. by rewrite <- app_assoc.
Qed.

(** X17: whatever the network answers and whether it returns or raises,
    [get_zones] requests only whole-state URLs of state prefixes of the
    requested zones, and no state prefix twice. *)
Theorem get_zones_requests_only_states zone_codes base_url suffix w :
  ∃ visited,
    fetched (get_zones web zone_codes base_url suffix w).2
    = fetched w ++ (state_url base_url suffix <$> visited) ∧
    NoDup visited ∧
    ∀ s, s ∈ visited → ∃ zone, zone ∈ zone_codes ∧ state_of zone = s.
Proof.
  unfold get_zones. rewrite bind_run.
  destruct (states_loop_fetched (group_zones zone_codes ∅)
              (dict_keys (group_zones zone_codes ∅)) base_url suffix [] w)
    as (visited & [rest Hp] & Hv).
  exists visited. split.
  - destruct (states_loop _ _ _ _ _ _ _) as [[acc|e] w1]; simpl in *; [|done].
    by rewrite cls_fetched.
  - pose proof (NoDup_fst_map_to_list (group_zones zone_codes ∅)) as Hnd.
    fold (dict_keys (group_zones zone_codes ∅)) in Hnd. rewrite Hp in Hnd.
    apply NoDup_app in Hnd as (Hnd & _ & _). split; [done|].
    intros s Hs.
    assert (s ∈ dict_keys (group_zones zone_codes ∅)) as Hk.
    { rewrite Hp. apply elem_of_app. by left. }
    apply dict_keys_lookup in Hk as [zs Hzs].
    apply group_zones_empty_lookup in Hzs as [Hne ->].
    destruct (filter _ zone_codes) as [|z l] eqn:Hfl; [done|].
    assert (z ∈ filter (λ z, state_of z = s) zone_codes) as Hz
      by (rewrite Hfl; by left).
    apply list_elem_of_filter in Hz as [? ?]. eauto.
Qed.

End FetchMore.

Lemma substring_0_0 s : String.substring 0 0 s = "".
Proof. by destruct s. Qed.

Lemma state_of_upper zone : state_of (upper zone) = state_of zone.
Proof.
  unfold state_of. destruct zone as [|c1 [|c2 r]]; simpl;
    rewrite ?substring_0_0; simpl; by rewrite ?lower_upper_ascii.
Qed.

Lemma state_of_lower zone : state_of (lower zone) = state_of zone.
Proof.
  unfold state_of. destruct zone as [|c1 [|c2 r]]; simpl;
    rewrite ?substring_0_0; simpl; by rewrite ?lower_ascii_idemp.
Qed.

Lemma state_of_length zone : String.length (state_of zone) ≤ 2.
Proof.
  unfold state_of. destruct zone as [|c1 [|c2 r]]; simpl;
    rewrite ?substring_0_0; simpl; lia.
Qed.

(** X18: the first loop of [get_zones] lists every zone code under the
    lower-cased first two characters of the code, in the order and as often
    as it occurs in the input; no group is empty, the keys are lower-case
    and at most two characters long, and the letter case of a code does not
    change its group. *)
Theorem group_zones_by_state zone_codes :
  (∀ zone, zone ∈ zone_codes →
     group_zones zone_codes ∅ !! state_of zone
     = Some (filter (λ z, state_of z = state_of zone) zone_codes)) ∧
  (∀ s zs, group_zones zone_codes ∅ !! s = Some zs →
     zs ≠ [] ∧ zs = filter (λ z, state_of z = s) zone_codes ∧
     lower s = s ∧ String.length s ≤ 2) ∧
  (∀ zone, state_of (upper zone) = state_of zone ∧
           state_of (lower zone) = state_of zone).
Proof.
  split; [|split].
  - intros zone Hin. apply group_zones_empty_lookup. split; [|done].
    intros Hnil.
    assert (zone ∈ filter (λ z, state_of z = state_of zone) zone_codes) as Hf
      by (by apply list_elem_of_filter).
    rewrite Hnil in Hf. by apply not_elem_of_nil in Hf.
  - intros s zs Hzs. apply group_zones_empty_lookup in Hzs as [Hne ->].
    split; [done|]. split; [done|].
    destruct (filter _ zone_codes) as [|z l] eqn:Hfl; [done|].
    assert (z ∈ filter (λ z, state_of z = s) zone_codes) as Hz
      by (rewrite Hfl; by left).
    apply list_elem_of_filter in Hz as [<- _].
    split; [apply lower_idemp|apply state_of_length].
  - intros zone. split; [apply state_of_upper|apply state_of_lower].
Qed.

(** ** What [get_alerts] hands out *)

Lemma alert_ids_keyed (l : list (string * CAP_Alert)) :
  Forall (λ kv, get_field kv.2 "id" = Ret kv.1) l → alert_ids (l.*2) = l.*1.
Proof.
  induction 1 as [|[k a] l Hk _ IH]; [done|].
  simpl in Hk. apply get_field_Ret in Hk.
  unfold alert_ids in *. simpl. rewrite Hk. simpl. f_equal. exact IH.
Qed.

(** X19: [get_alerts] of a feed changes nothing and returns alerts that all
    carry an identifier, no two the same one; [count_alerts] is the length
    of that list, and the identifiers of the list are the keys of the
    feed. *)
Theorem get_alerts_distinct_ids w self f :
  heap w !! self = Some f → feed_inv f →
  ∃ l,
    get_alerts self w = (Ret l, w) ∧
    count_alerts self w = (Ret (length l), w) ∧
    Forall has_some_id l ∧
    NoDup (alert_ids l) ∧
    list_to_set (alert_ids l) = dom (alerts f).
Proof.
  intros Hs [Hk _]. exists (dict_values (alerts f)).
  split; [by apply get_alerts_run|].
  split; [by rewrite (count_alerts_run _ _ _ Hs), length_dict_values|].
  split; [by apply keyed_values_have_id|].
  assert (alert_ids (dict_values (alerts f)) = (map_to_list (alerts f)).*1) as ->.
  { apply alert_ids_keyed, Forall_forall. intros [k a] Hin.
    apply elem_of_map_to_list in Hin. simpl. by apply Hk. }
  split; [apply NoDup_fst_map_to_list|].
  apply set_eq. intros k. rewrite elem_of_list_to_set, elem_of_dom.
  fold (dict_keys (alerts f)). by rewrite dict_keys_lookup.
Qed.

(** ** The properties above at sample feeds *)



Lemma categorize_alerts_groups_witness :
  ∃ groups,
    categorize_alerts 0 "cap:urgency" world_1 = (Ret (Some groups), world_1) ∧
    (∀ v l, groups !! v = Some l ↔
            l ≠ [] ∧
            l = filter (λ a, get_field a "cap:urgency" = Ret v)
                       (dict_values (alerts feed_AB))) ∧
    (∀ a, a ∈ dict_values (alerts feed_AB) →
          ∃ v l, get_field a "cap:urgency" = Ret v ∧ groups !! v = Some l ∧ a ∈ l).
Proof.
  apply (categorize_alerts_groups world_1 0 feed_AB "cap:urgency").
  - reflexivity.
  - intros Hempty. apply (f_equal (λ d, d !! "A")) in Hempty. vm_compute in Hempty.
    discriminate.
  - vm_compute. repeat constructor; eexists; reflexivity.
Defined.

Lemma missing_field_raises_witness :
  filter_alerts 0 "cap:urgency" ["Immediate"] true world_2
    = (Raise (KeyError "cap:urgency"), world_2) ∧
  categorize_alerts 0 "cap:urgency" world_2
    = (Raise (KeyError "cap:urgency"), world_2).
Proof.
  apply (missing_field_raises world_2 0 feed_AD "cap:urgency" ["Immediate"] true).
  - reflexivity.
  - apply keyed_feed_inv, keyed_by_id_check. vm_compute. reflexivity.
  - intros Hall.
    assert (alert_D ∈ dict_values (alerts feed_AD)) as Hin.
    { apply elem_of_dict_values. exists "D". reflexivity. }
    destruct (proj1 (Forall_forall _ _) Hall alert_D Hin) as [v Hv].
    vm_compute in Hv. discriminate.
Defined.

Lemma filter_by_location_no_locations_witness :
  filter_by_location 0 [] "UGC" true world_1
  = (Ret (Some (dict_values (alerts feed_AB))), world_1).
Proof.
  apply (filter_by_location_no_locations world_1 0 feed_AB "UGC" true).
  - reflexivity.
  - apply keyed_feed_inv, keyed_by_id_check. vm_compute. reflexivity.
  - intros Hempty. apply (f_equal (λ d, d !! "A")) in Hempty. vm_compute in Hempty.
    discriminate.
Defined.

Lemma filter_after_stored_filter_witness :
  ∃ out1 w1 r,
    filter_alerts 0 "cap:urgency" ["Immediate"] true world_1 = (Ret (Some out1), w1) ∧
    filter_alerts 0 "id" ["A"] false w1 = (Ret r, w1) ∧
    (out1 = [] → r = None) ∧
    (out1 ≠ [] →
     ∃ out2, r = Some out2 ∧
       ∀ a, a ∈ out2 ↔ a ∈ out1 ∧ ∃ v, get_field a "id" = Ret v ∧ v ∈ ["A"]).
Proof.
  apply (filter_after_stored_filter world_1 0 feed_AB "cap:urgency" ["Immediate"]
           "id" ["A"]).
  - reflexivity.
  - apply keyed_feed_inv, keyed_by_id_check. vm_compute. reflexivity.
  - intros Hempty. apply (f_equal (λ d, d !! "A")) in Hempty. vm_compute in Hempty.
    discriminate.
  - vm_compute. repeat constructor; eexists; reflexivity.
  - vm_compute. repeat constructor; eexists; reflexivity.
Defined.

Lemma merge_idempotent_witness :
  __iadd__ 0 0 world_1 = (Ret 0, world_1) ∧
  (__iadd__ 0 1 ≫= λ a', __iadd__ a' 1) world_1 = __iadd__ 0 1 world_1.
Proof.
  apply (merge_idempotent world_1 0 1 feed_AB feed_AC).
  - reflexivity.
  - reflexivity.
  - apply keyed_feed_inv, keyed_by_id_check. vm_compute. reflexivity.
  - apply keyed_feed_inv, keyed_by_id_check. vm_compute. reflexivity.
Defined.

Lemma combine_associative_witness :
  ∃ r1 w1 r2 w2,
    (__add__ 0 1 ≫= λ ab, __add__ ab 2) world_1 = (Ret r1, w1) ∧
    (__add__ 1 2 ≫= λ bc, __add__ 0 bc) world_1 = (Ret r2, w2) ∧
    heap w1 !! r1
      = Some (mkFeed (alerts feed_empty ∪ alerts feed_AC ∪ alerts feed_AB)) ∧
    heap w2 !! r2
      = Some (mkFeed (alerts feed_empty ∪ alerts feed_AC ∪ alerts feed_AB)).
Proof.
  apply (combine_associative world_1 0 1 2 feed_AB feed_AC feed_empty).
  - reflexivity.
  - reflexivity.
  - reflexivity.
  - apply keyed_feed_inv, keyed_by_id_check. vm_compute. reflexivity.
  - apply keyed_feed_inv, keyed_by_id_check. vm_compute. reflexivity.
  - apply keyed_feed_inv, keyed_by_id_check. vm_compute. reflexivity.
Defined.

Lemma construct_counts_distinct_ids_witness :
  ∃ c w' n,
    cls [alert_A1; alert_A2; alert_B] world_0 = (Ret c, w') ∧
    count_alerts c w' = (Ret n, w') ∧
    n = size (list_to_set (alert_ids [alert_A1; alert_A2; alert_B]) : gset string) ∧
    n ≤ length [alert_A1; alert_A2; alert_B] ∧
    (n = length [alert_A1; alert_A2; alert_B]
     ↔ NoDup (alert_ids [alert_A1; alert_A2; alert_B])).
Proof.
  apply (construct_counts_distinct_ids [alert_A1; alert_A2; alert_B] world_0).
  repeat constructor; eexists; reflexivity.
Defined.

Lemma get_zones_returns_union_witness :
  ∃ c w' f states,
    get_zones web_active ["MIZ001"; "OHZ002"] default_base_url default_suffix world_0
      = (Ret c, w') ∧
    heap w' !! c = Some f ∧
    fetched w'
      = fetched world_0 ++ (state_url default_base_url default_suffix <$> states) ∧
    NoDup states ∧
    (∀ s, s ∈ states ↔ ∃ zone, zone ∈ ["MIZ001"; "OHZ002"] ∧ state_of zone = s) ∧
    (∀ k a, alerts f !! k = Some a →
       get_field a "id" = Ret k ∧
       ∃ zone, zone ∈ ["MIZ001"; "OHZ002"] ∧
               a ∈ dict_values (state_feed web_active default_base_url default_suffix
                                  (state_of zone)) ∧
               zone ∈ get_geocode a "UGC") ∧
    (∀ zone a, zone ∈ ["MIZ001"; "OHZ002"] →
       a ∈ dict_values (state_feed web_active default_base_url default_suffix
                          (state_of zone)) →
       zone ∈ get_geocode a "UGC" →
       ∃ k, get_field a "id" = Ret k ∧ k ∈ dom (alerts f)).
Proof.
  apply (get_zones_returns_union web_active default_base_url default_suffix
           ["MIZ001"; "OHZ002"] world_0).
  intros zone Hin.
  assert (zone = "MIZ001" ∨ zone = "OHZ002") as [-> | ->].
  { apply list_elem_of_In in Hin. simpl in Hin. intuition. }
  - exists entries_mi. split; [reflexivity|]. split; [by vm_compute|].
    vm_compute. repeat constructor; eexists; reflexivity.
  - exists [mkEntry "Flood Warning" (fields alert_C) (geocodes alert_C)].
    split; [reflexivity|]. split; [by vm_compute|].
    vm_compute. repeat constructor; eexists; reflexivity.
Defined.

Lemma fetchers_preserve_invariant_witness :
  heap_inv (from_url web_active url_mi world_1).2 ∧
  heap_inv (whole_state web_active "MI" default_base_url default_suffix world_1).2 ∧
  heap_inv (get_county web_active "miz001" default_base_url default_suffix world_1).2 ∧
  heap_inv (get_zones web_active ["MIZ001"; "OHZ002"] default_base_url default_suffix
              world_1).2 ∧
  heap_inv (categorize_alerts 0 "cap:urgency" world_1).2.
Proof.
  apply (fetchers_preserve_invariant web_active world_1 url_mi "MI" "miz001"
           ["MIZ001"; "OHZ002"] default_base_url default_suffix 0 "cap:urgency").
  unfold heap_inv. simpl.
  repeat (constructor;
          [apply keyed_feed_inv, keyed_by_id_check; vm_compute; reflexivity|]).
  constructor.
Defined.

Lemma get_zones_aborts_on_fetch_error_witness :
  ∃ e' w',
    get_zones web_quiet_mi ["OHZ002"; "INZ001"] default_base_url default_suffix world_0
    = (Raise e', w').
Proof.
  apply (get_zones_aborts_on_fetch_error web_quiet_mi ["OHZ002"; "INZ001"] "INZ001"
           default_base_url default_suffix URLError world_0).
  - right. by left.
  - reflexivity.
Defined.

Lemma get_alerts_distinct_ids_witness :
  ∃ l,
    get_alerts 0 world_1 = (Ret l, world_1) ∧
    count_alerts 0 world_1 = (Ret (length l), world_1) ∧
    Forall has_some_id l ∧
    NoDup (alert_ids l) ∧
    list_to_set (alert_ids l) = dom (alerts feed_AB).
Proof.
  apply (get_alerts_distinct_ids world_1 0 feed_AB).
  - reflexivity.
  - apply keyed_feed_inv, keyed_by_id_check. vm_compute. reflexivity.
Defined.
